(** * cmd: a minimal command-line command dispatcher (cc0::cmd)

    Shallow embedding of [cmd.cpp] / [cmd.h] and the properties of its
    registry, name sanitizer, parameter view and processing loop.

    Conventions of the embedding:
    - [int] is 32 bits wide and two's complement, [uint32_t] and
      [uint64_t] (and [size_t]) wrap modulo [2^32] and [2^64]; all of them
      are carried as [Z] with the wrap-around written out ([to_u32],
      [to_i32], [to_u64]).
    - [const char *] is [option string]: [None] is [nullptr].
    - [std::unordered_map<std::string, Cmd>] is [gmap string Cmd].
    - A handler (a function pointer from [Params] to [bool]) may have
      effects of its own; they are threaded through an abstract [World].
      The registry is not changed while [Process] runs.
    - Console output of [Process] is kept as a trace of events. *)

From Stdlib Require Import ZArith Ascii String List Lia.
From stdpp Require Import base tactics option list strings gmap fin_maps.

Local Open Scope Z_scope.

(** ** Machine integers *)

Definition INT_MAX : Z := 2 ^ 31 - 1.
Definition to_u32 (z : Z) : Z := z mod 2 ^ 32.
Definition to_u64 (z : Z) : Z := z mod 2 ^ 64.
Definition to_i32 (z : Z) : Z :=
  let u := to_u32 z in if u <? 2 ^ 31 then u else u - 2 ^ 32.

(** ** Characters and the name sanitizer (cmd.cpp, lines 101-106) *)

Definition char_code (c : ascii) : Z := Z.of_N (N_of_ascii c).

(** [(c >= 'a' && c <= 'z') || (c >= 'A' && c <= 'Z') || (c >= '0' && c <= '9')].
    A [char] above 127 is outside the three ranges whether [char] is
    signed or not. *)
Definition is_alnum (c : ascii) : bool :=
  let n := char_code c in
  ((97 <=? n) && (n <=? 122)) || ((65 <=? n) && (n <=? 90))
  || ((48 <=? n) && (n <=? 57)).

Definition separator : ascii := "-"%char.

(** One iteration of the loop body: [if (!alnum(cmd[i])) cmd[i] = '-']. *)
Definition sanitize_at (cmd : list ascii) (i : nat) : list ascii :=
  match cmd !! i with
  | Some c => if is_alnum c then cmd else <[i := separator]> cmd
  | None => cmd
  end.

(** [for (size_t i = 0; i < cmd.size(); ++i) ...]: the size does not
    change, so the indices visited are [0 .. size-1]. *)
Definition sanitize_chars (cmd : list ascii) : list ascii :=
  foldl sanitize_at cmd (seq 0 (length cmd)).

Definition sanitize (cmd_name : string) : string :=
  string_of_list_ascii (sanitize_chars (list_ascii_of_string cmd_name)).

(** The character-wise reading of the loop. *)
Definition sanitize_char (c : ascii) : ascii :=
  if is_alnum c then c else separator.

(** ** Parameters (cmd.h, class Param / class Params) *)

(** [Param]: a wrapper of one [const char *]. *)
Record Param := mkParam { m_param : option string }.

(** [Param(nullptr)], the value returned for an index out of range. *)
Definition null_param : Param := mkParam None.

(** [Parse<type_t>]. *)
Record Parse (T : Type) := mkParse { value : T; result : bool }.
Arguments mkParse {T} _ _.
Arguments value {T} _.
Arguments result {T} _.

(** [Params]: [m_params] points into an array of C strings ([None] for
    [nullptr]); the list is the array from the pointer to its end. *)
Record Params := mkParams {
  m_params : option (list string);
  m_param_count : Z
}.

Definition GetCount (ps : Params) : Z := m_param_count ps.

(** [Params::operator[]]:
    [return i < m_param_count ? Param(m_params[i]) : Param(nullptr);]
    The outer [option] is [None] when the read [m_params[i]] leaves the
    array or dereferences [nullptr] (undefined behaviour in C++). *)
Definition Params_index (ps : Params) (i : Z) : option Param :=
  if i <? m_param_count ps then
    match m_params ps with
    | Some arr =>
        match arr !! Z.to_nat i with
        | Some s => Some (mkParam (Some s))
        | None => None
        end
    | None => None
    end
  else Some null_param.

(** ** Conversions (cmd.cpp, Param::Int / Param::Bool)

    Each conversion loads the text in a [std::istringstream] and sets
    [result] to [bool(sin >> p.value)].  The extraction is the standard
    one for the classic locale with the default flags ([skipws], [dec],
    no [boolalpha]): leading white space is skipped, then an optional
    sign and the longest run of decimal digits are read; what follows is
    left in the stream and does not affect the stream state. *)

(** [std::isspace] in the classic locale. *)
Definition is_space (c : ascii) : bool :=
  let n := char_code c in ((9 <=? n) && (n <=? 13)) || (n =? 32).

Definition is_digit (c : ascii) : bool :=
  let n := char_code c in (48 <=? n) && (n <=? 57).

Definition digit_value (c : ascii) : Z := char_code c - 48.

Fixpoint skip_ws (s : list ascii) : list ascii :=
  match s with
  | c :: r => if is_space c then skip_ws r else s
  | [] => []
  end.

Fixpoint digits_prefix (s : list ascii) : list ascii :=
  match s with
  | c :: r => if is_digit c then c :: digits_prefix r else []
  | [] => []
  end.

Definition decimal (ds : list ascii) : Z :=
  fold_left (fun acc c => 10 * acc + digit_value c) ds 0.

(** The sign of the field and the text after it. *)
Definition read_sign (s : list ascii) : bool * list ascii :=
  match s with
  | c :: r =>
      if Ascii.eqb c "-" then (true, r)
      else if Ascii.eqb c "+" then (false, r)
      else (false, s)
  | [] => (false, [])
  end.

(** Extraction of a signed integer of range [lo .. hi].  The pair is the
    value stored and the stream state after it ([true]: no [failbit]).
    Without a digit the extraction fails and stores 0; out of range it
    fails and stores the nearest bound.  The value stored on failure is
    what C++11 prescribes; the header calls it undefined.  On empty or
    blank text the stream fails before anything is stored and [p.value]
    keeps its indeterminate content: the 0 of the model stands for it,
    and nothing is stated about the value in that case. *)
Definition extract_integer (lo hi : Z) (s : list ascii) : Z * bool :=
  let '(neg, body) := read_sign (skip_ws s) in
  match digits_prefix body with
  | [] => (0, false)
  | ds =>
      let v := if neg then - decimal ds else decimal ds in
      if v <? lo then (lo, false)
      else if hi <? v then (hi, false)
      else (v, true)
  end.

Definition INT64_MIN : Z := - 2 ^ 63.
Definition INT64_MAX : Z := 2 ^ 63 - 1.

(** [sin >> p.value] for [int64_t]. *)
Definition extract_int64 (s : string) : Parse Z :=
  let '(v, ok) := extract_integer INT64_MIN INT64_MAX (list_ascii_of_string s) in
  mkParse v ok.

(** [sin >> p.value] for [bool] without [boolalpha]: the field is read as
    a [long]; 0 stores [false], 1 stores [true], anything else stores
    [true] and fails. *)
Definition extract_bool (s : string) : Parse bool :=
  let '(v, ok) := extract_integer INT64_MIN INT64_MAX (list_ascii_of_string s) in
  mkParse (negb (v =? 0)) (ok && ((v =? 0) || (v =? 1))).

(** [Param::Int] and [Param::Bool].  [sin.str(m_param)] builds a
    [std::string] from the pointer, which is undefined for [nullptr]:
    [None]. *)
Definition Int (p : Param) : option (Parse Z) :=
  extract_int64 <$> m_param p.

Definition Bool (p : Param) : option (Parse bool) :=
  extract_bool <$> m_param p.

(** [Param::Real] is the same code with the extraction of a [double].
    Floating point is outside this development: the extraction is a
    parameter. *)
Section RealConversion.
Context {double : Type}.
Variable extract_double : string -> Parse double.

Definition Real (p : Param) : option (Parse double) :=
  extract_double <$> m_param p.

End RealConversion.

(** ** Process-wide state (cmd.cpp, struct Cmd, struct Info) *)

Record Info := mkInfo {
  app_name : string;
  version : string;
  longest_cmd : Z
}.

(** What [Process] prints and calls, in order.  [i] is the index in [argv]. *)
Inductive event :=
| Unrecognized (i : Z) (tok : string)
| TooFew (i : Z) (tok : string)
| Invoked (i : Z) (tok : string) (ps : Params) (ret : bool).

(** The result of one pass through the body of the loop of [Process]. *)
Inductive step_result :=
| Return (code : Z)
| Next (i : Z) (success : bool)
| Undefined.

(** The result of a call of [Process]. *)
Inductive outcome :=
| Exit (code : Z)
| Undef
| OutOfFuel.

Fixpoint spaces (n : nat) : string :=
  match n with
  | O => ""
  | S n' => String " " (spaces n')
  end.

Section Dispatcher.
Context {World : Type}.

Record Cmd := mkCmd {
  fn : Params -> World -> bool * World;
  doc : string;
  param_count : Z;
  halt_on_fail : bool
}.

(** [Cmds()] and [Information()]. *)
Record Globals := mkGlobals {
  Cmds : gmap string Cmd;
  Information : Info
}.

Definition initial : Globals := mkGlobals ∅ (mkInfo "" "" 0).

(** [Command]: [find] in the map, [nullptr] when absent. *)
Definition Command (cmds : gmap string Cmd) (cmd_name : string) : option Cmd :=
  cmds !! cmd_name.

Definition Init (name ver : string) (g : Globals) : Globals :=
  mkGlobals (Cmds g) (mkInfo name ver (longest_cmd (Information g))).

(** [Register] (cmd.cpp, lines 99-110). *)
Definition Register (cmd_name : string) (f : Params -> World -> bool * World)
    (count : Z) (d : string) (hof : bool) (g : Globals) : bool * Globals :=
  let cmd := sanitize cmd_name in
  let cmds := <[cmd := mkCmd f d count hof]> (Cmds g) in
  let width := to_u64 (Z.of_nat (String.length cmd) + 3) in
  let old := longest_cmd (Information g) in
  let longest := if old <? width then width else old in
  (true, mkGlobals cmds
           (mkInfo (app_name (Information g)) (version (Information g)) longest)).

(** The arguments of one call of [Register]. *)
Record registration := mkRegistration {
  reg_name : string;
  reg_fn : Params -> World -> bool * World;
  reg_count : Z;
  reg_doc : string;
  reg_halt : bool
}.

Definition register_call (g : Globals) (r : registration) : Globals :=
  snd (Register (reg_name r) (reg_fn r) (reg_count r) (reg_doc r) (reg_halt r) g).

(** A sequence of [Register] calls, first call first. *)
Definition register_all (rs : list registration) (g : Globals) : Globals :=
  foldl register_call g rs.

Definition descriptor (r : registration) : Cmd :=
  mkCmd (reg_fn r) (reg_doc r) (reg_count r) (reg_halt r).

(** *** Process (cmd.cpp, lines 112-133) *)

(** [argv[i]]; outside the array the read is undefined. *)
Definition argv_at (argv : list string) (i : Z) : option string :=
  if i <? 0 then None else argv !! Z.to_nat i.

(** [i += a->param_count]: the sum is taken in [unsigned] and stored back
    in the [int]. *)
Definition add_assign (i count : Z) : Z := to_i32 (to_u32 i + count).

(** [++i] of the loop header; overflow of a signed [int] is undefined. *)
Definition increment (i : Z) (success : bool) : step_result :=
  if i =? INT_MAX then Undefined else Next (i + 1) success.

(** The body of the loop at index [i], followed by [++i]. *)
Definition Process_step (cmds : gmap string Cmd) (argc : Z) (argv : list string)
    (halt_on_unrecognized : bool) (i : Z) (success : bool) (w : World)
    : step_result * list event * World :=
  match argv_at argv i with
  | None => (Undefined, [], w)
  | Some tok =>
      match Command cmds tok with
      | None =>
          (if halt_on_unrecognized then Return 1 else increment i success,
           [Unrecognized i tok], w)
      | Some a =>
          if to_u32 argc <=? to_u32 (to_u32 i + param_count a) then
            (increment (add_assign i (param_count a)) success, [TooFew i tok], w)
          else
            let ps :=
              mkParams (if 0 <? param_count a
                        then Some (drop (Z.to_nat (i + 1)) argv) else None)
                       (param_count a) in
            let '(ret, w') := fn a ps w in
            if ret then
              (increment (add_assign i (param_count a)) success,
               [Invoked i tok ps true], w')
            else if halt_on_fail a then
              (Return 1, [Invoked i tok ps false], w')
            else
              (increment (add_assign i (param_count a)) false,
               [Invoked i tok ps false], w')
      end
  end.

(** The loop [for (...; i < argc; ...)] and the final
    [return success ? 0 : 1].  [fuel] bounds the number of times the
    condition is tested. *)
Fixpoint Process_loop (fuel : nat) (cmds : gmap string Cmd) (argc : Z)
    (argv : list string) (halt_on_unrecognized : bool) (i : Z) (success : bool)
    (w : World) : outcome * list event * World :=
  match fuel with
  | O => (OutOfFuel, [], w)
  | S fuel' =>
      if i <? argc then
        match Process_step cmds argc argv halt_on_unrecognized i success w with
        | (Return code, evs, w') => (Exit code, evs, w')
        | (Undefined, evs, w') => (Undef, evs, w')
        | (Next i' success', evs, w') =>
            let '(o, tr, w'') :=
              Process_loop fuel' cmds argc argv halt_on_unrecognized i' success' w' in
            (o, evs ++ tr, w'')
        end
      else (Exit (if success then 0 else 1), [], w)
  end.

Definition Process (fuel : nat) (cmds : gmap string Cmd) (argc : Z)
    (argv : list string) (halt_on_unrecognized : bool) (w : World)
    : outcome * list event * World :=
  Process_loop fuel cmds argc argv halt_on_unrecognized 1 true w.

(** *** Builtin commands (cmd.cpp, lines 135-154) *)

(** What [version] prints (without the line end). *)
Definition version_line (g : Globals) : string :=
  app_name (Information g) +:+ " " +:+ version (Information g).

Definition version_Run (ps : Params) (w : World) : bool * World := (true, w).

(** The number of blanks [help] prints after a name: the bound of the
    inner loop, [longest_cmd - i->first.size()] in [uint64_t]. *)
Definition help_padding (g : Globals) (name : string) : Z :=
  to_u64 (longest_cmd (Information g) - Z.of_nat (String.length name)).

Definition help_line (g : Globals) (entry : string * Cmd) : string :=
  fst entry +:+ spaces (Z.to_nat (help_padding g (fst entry))) +:+ doc (snd entry).

(** The lines [help] prints: the version line, then one line per entry
    of the map.  The code iterates a [std::unordered_map], whose order is
    unspecified and depends on the history of the map; the order of
    [map_to_list] stands for it, so only which lines there are and how
    many is meant, not their order. *)
Definition help_lines (g : Globals) : list string :=
  version_line g :: map (help_line g) (map_to_list (Cmds g)).

Definition help_Run (ps : Params) (w : World) : bool * World := (true, w).

(** The state once the static initialisers of cmd.cpp have run. *)
Definition builtins : list registration :=
  [ mkRegistration "version" version_Run 0 "Print version." false;
    mkRegistration "help" help_Run 0 "Print help." false ].

End Dispatcher.

Arguments Cmd : clear implicits.
Arguments Globals : clear implicits.
Arguments registration : clear implicits.

(** ** Predicates used in the statements *)

(** Keys of the registry: only ASCII letters, digits and ['-']. *)
Definition key_chars_ok (key : string) : Prop :=
  Forall (fun c => is_alnum c = true \/ c = separator) (list_ascii_of_string key).

(** A name whose length plus the padding fits [size_t] (every
    [std::string] does: its size is below [max_size()]). *)
Definition name_fits {World : Type} (r : registration World) : Prop :=
  Z.of_nat (String.length (reg_name r)) + 3 < 2 ^ 64.

(** The invariant behind the alignment of [help]. *)
Definition longest_inv {World : Type} (g : Globals World) : Prop :=
  0 <= longest_cmd (Information g) < 2 ^ 64
  /\ forall (key : string) c, Cmds g !! key = Some c ->
       Z.of_nat (String.length key) + 3 <= longest_cmd (Information g).

(** The value of a sign and a run of digits. *)
Definition signed_decimal (sgn ds : list ascii) : Z :=
  if decide (sgn = ["-"%char]) then - decimal ds else decimal ds.

(** [s] is white space [ws], a sign [sgn] (or none), the digits [ds] (at
    least one, and no digit follows them) and the text [rest]. *)
Definition integer_field (s ws sgn ds rest : list ascii) : Prop :=
  s = ws ++ sgn ++ ds ++ rest
  /\ Forall (fun c => is_space c = true) ws
  /\ (sgn = [] \/ sgn = ["+"%char] \/ sgn = ["-"%char])
  /\ ds <> []
  /\ Forall (fun c => is_digit c = true) ds
  /\ (forall c, head rest = Some c -> is_digit c = false).

(** The text starts with a decimal integer in [lo .. hi]. *)
Definition starts_with_integer (lo hi : Z) (s : string) (v : Z) : Prop :=
  exists ws sgn ds rest,
    integer_field (list_ascii_of_string s) ws sgn ds rest
    /\ v = signed_decimal sgn ds /\ lo <= v <= hi.

(** An invoked handler returned [false]. *)
Definition is_failure (ev : event) : bool :=
  match ev with
  | Invoked _ _ _ ret => negb ret
  | _ => false
  end.

(** The event is one of the two after which [Process] returns at once:
    an unrecognized command under [halt_on_unrecognized], or a failed
    handler of a command registered with [halt_on_fail]. *)
Definition is_hard_stop {World : Type} (cmds : gmap string (Cmd World))
    (halt_on_unrecognized : bool) (ev : event) : bool :=
  match ev with
  | Unrecognized _ _ => halt_on_unrecognized
  | TooFew _ _ => false
  | Invoked _ tok _ ret =>
      negb ret && match Command cmds tok with
                  | Some a => halt_on_fail a
                  | None => false
                  end
  end.

(** A call as [main] makes it: [argc] is the length of [argv], and no
    index plus arity leaves the range of [int]. *)
Definition call_ok {World : Type} (cmds : gmap string (Cmd World))
    (argc : Z) (argv : list string) : Prop :=
  argc = Z.of_nat (length argv)
  /\ argc <= INT_MAX
  /\ map_Forall (fun _ a => 0 <= param_count a /\ argc + param_count a <= INT_MAX) cmds.

(** ** The commands of the README, as a concrete registry *)

Module Demo.

(** What the handlers print. *)
Inductive output :=
| Text (s : string)
| Number (z : Z).

Definition World : Type := list output.

(** [add_two_values]: both parameters as integers, prints the sum. *)
Definition add_two_values_Run (params : Params) (w : World) : bool * World :=
  match Params_index params 0, Params_index params 1 with
  | Some a, Some b =>
      match Int a, Int b with
      | Some p1, Some p2 =>
          if result p1 && result p2
          then (true, w ++ [Number (value p1 + value p2)])
          else (false, w)
      | _, _ => (false, w)
      end
  | _, _ => (false, w)
  end.

(** [must_pass] always fails. *)
Definition must_pass_Run (params : Params) (w : World) : bool * World :=
  (false, w).

(** [another_cmd] prints a line (the README leaves out its [return];
    it is taken to succeed). *)
Definition another_cmd_Run (params : Params) (w : World) : bool * World :=
  (true, w ++ [Text ":("]).

Definition add_two_values : registration World :=
  mkRegistration "add_two_values" add_two_values_Run 2
    "Adds two specified values together and prints the result." false.

Definition must_pass : registration World :=
  mkRegistration "must_pass" must_pass_Run 0
    "Running this command will stop processing further commands." true.

Definition another_cmd : registration World :=
  mkRegistration "another_cmd" another_cmd_Run 0 "Just another command." false.

Definition registrations : list (registration World) :=
  builtins ++ [add_two_values; must_pass; another_cmd].

Definition globals : Globals World := register_all registrations initial.

(** A registration with an empty name. *)
Definition nameless : registration World :=
  mkRegistration "" another_cmd_Run 0 "No name." false.

(** A second registration under the name of [must_pass]. *)
Definition must_pass_again : registration World :=
  mkRegistration "must-pass" another_cmd_Run 0 "Replaced." false.

(** A command line that ends before the second parameter of
    [add-two-values], with the name of a command in the place of the
    first parameter. *)
Definition short_line : list string := ["app"; "add-two-values"; "version"].

End Demo.

(** ** A command whose arity is at the end of [uint32_t] *)

Module Wrap.

Definition spin_Run (params : Params) (w : unit) : bool * unit := (true, w).

Definition spin : registration unit :=
  mkRegistration "spin" spin_Run (2 ^ 32 - 1) "Takes 4294967295 parameters." false.

Definition globals : Globals unit := register_all [spin] initial.

End Wrap.

(** ** Reading a run of [Process] *)

(** The index of [argv] an event is about. *)
Definition event_index (ev : event) : Z :=
  match ev with
  | Unrecognized i _ | TooFew i _ | Invoked i _ _ _ => i
  end.

Definition event_token (ev : event) : string :=
  match ev with
  | Unrecognized _ tok | TooFew _ tok | Invoked _ tok _ _ => tok
  end.

(** The index the loop looks at after an event: the next one for an
    unrecognized token, the one after the parameters for a command. *)
Definition event_next {World : Type} (cmds : gmap string (Cmd World))
    (ev : event) : Z :=
  match Command cmds (event_token ev) with
  | Some a => event_index ev + param_count a + 1
  | None => event_index ev + 1
  end.

(** The events of [tr] are about the index [i], then the index that
    follows the first event, and so on. *)
Fixpoint chained {World : Type} (cmds : gmap string (Cmd World))
    (i : Z) (tr : list event) : Prop :=
  match tr with
  | [] => True
  | ev :: tr' => event_index ev = i /\ chained cmds (event_next cmds ev) tr'
  end.

(** The events of a command line on which no token is recognized, from
    index [i] on. *)
Fixpoint all_unrecognized (i : Z) (toks : list string) : list event :=
  match toks with
  | [] => []
  | tok :: toks' => Unrecognized i tok :: all_unrecognized (i + 1) toks'
  end.

(** ** Start-up: calls of [Register] and [Init] in any order *)

Inductive setup_call {World : Type} :=
| CallRegister (r : registration World)
| CallInit (name ver : string).
Arguments setup_call : clear implicits.

Definition setup_step {World : Type} (g : Globals World)
    (c : setup_call World) : Globals World :=
  match c with
  | CallRegister r => register_call g r
  | CallInit name ver => Init name ver g
  end.

Definition setup {World : Type} (cs : list (setup_call World))
    (g : Globals World) : Globals World :=
  foldl setup_step g cs.

(** The [Register] calls of a start-up sequence, in order. *)
Definition registrations_of {World : Type} (cs : list (setup_call World))
    : list (registration World) :=
  omap (fun c => match c with CallRegister r => Some r | CallInit _ _ => None end) cs.

(** The arguments of the last [Init] of a start-up sequence. *)
Definition last_Init {World : Type} (cs : list (setup_call World))
    : option (string * string) :=
  last (omap (fun c => match c with
                       | CallInit name ver => Some (name, ver)
                       | CallRegister _ => None
                       end) cs).

(** ** The loop body in exact arithmetic *)

(** The view [Process] hands to the handler of a command of arity [n]
    found at index [i]. *)
Definition params_at (argv : list string) (i n : Z) : Params :=
  mkParams (if 0 <? n then Some (drop (Z.to_nat (i + 1)) argv) else None) n.

(** [Process_step] with every sum taken in unbounded integers: what the
    body does when no conversion between [int] and [unsigned] changes a
    value. *)
Definition Process_step_exact {World : Type} (cmds : gmap string (Cmd World))
    (argc : Z) (argv : list string) (halt_on_unrecognized : bool)
    (i : Z) (success : bool) (w : World) : step_result * list event * World :=
  match argv_at argv i with
  | None => (Undefined, [], w)
  | Some tok =>
      match Command cmds tok with
      | None =>
          (if halt_on_unrecognized then Return 1 else Next (i + 1) success,
           [Unrecognized i tok], w)
      | Some a =>
          let n := param_count a in
          if argc <=? i + n then (Next (i + n + 1) success, [TooFew i tok], w)
          else
            let '(ret, w') := fn a (params_at argv i n) w in
            if ret then
              (Next (i + n + 1) success, [Invoked i tok (params_at argv i n) true], w')
            else if halt_on_fail a then
              (Return 1, [Invoked i tok (params_at argv i n) false], w')
            else
              (Next (i + n + 1) false, [Invoked i tok (params_at argv i n) false], w')
      end
  end.

(** What an event of a run says about the registry and the command
    line: an unrecognized token is not a key; a command reported with too
    few parameters has more parameters than tokens are left; an invoked
    handler was given a view of exactly its arity in which every index
    below the arity reads the token at that distance after the command. *)
Definition event_sound {World : Type} (cmds : gmap string (Cmd World))
    (argc : Z) (argv : list string) (ev : event) : Prop :=
  match ev with
  | Unrecognized i tok => Command cmds tok = None
  | TooFew i tok =>
      exists a, Command cmds tok = Some a /\ argc <= i + param_count a
  | Invoked i tok ps ret =>
      exists a, Command cmds tok = Some a
        /\ i + param_count a < argc
        /\ GetCount ps = param_count a
        /\ forall j, 0 <= j < param_count a ->
             exists s, argv !! Z.to_nat (i + 1 + j) = Some s
               /\ Params_index ps j = Some (mkParam (Some s))
  end.

(** No handler was invoked. *)
Definition is_invocation (ev : event) : bool :=
  match ev with
  | Invoked _ _ _ _ => true
  | _ => false
  end.

(** ** Decimal notation of an integer

    The text an integer is written as (what [operator<<] prints for it):
    a minus sign for a negative number and the decimal digits without
    leading zeros.  It is used to state what [Int] and [Bool] read. *)

Definition digit_char (d : Z) : ascii := ascii_of_N (Z.to_N (48 + d)).

(** The digits of [n] in front of [acc]; [fuel] bounds their number. *)
Fixpoint render_digits (fuel : nat) (n : Z) (acc : list ascii) : list ascii :=
  match fuel with
  | O => acc
  | S fuel' =>
      let acc' := digit_char (n mod 10) :: acc in
      if n <? 10 then acc' else render_digits fuel' (n / 10) acc'
  end.

Definition numeral_chars (z : Z) : list ascii :=
  let n := Z.abs z in
  let ds := render_digits (S (Z.to_nat (Z.log2 n))) n [] in
  if z <? 0 then "-"%char :: ds else ds.

Definition numeral (z : Z) : string := string_of_list_ascii (numeral_chars z).

(** What the extraction stores for a number [v] read from the text. *)
Definition clamp_int64 (v : Z) : Parse Z :=
  if v <? INT64_MIN then mkParse INT64_MIN false
  else if INT64_MAX <? v then mkParse INT64_MAX false
  else mkParse v true.

(** ** The runs of [Process] as a relation

    [exact_run cmds argc argv h i success w code tr w']: started at
    index [i] with the flag [success] and the world [w], the loop of
    [Process] (under [halt_on_unrecognized = h], all sums in unbounded
    integers) goes through the events [tr] and returns [code], leaving
    the world [w'].  One rule per way through the body of the loop. *)
Inductive exact_run {World : Type} (cmds : gmap string (Cmd World))
    (argc : Z) (argv : list string) (h : bool)
    : Z -> bool -> World -> Z -> list event -> World -> Prop :=
| run_exhausted i success w :
    argc <= i ->
    exact_run cmds argc argv h i success w (if success then 0 else 1) [] w
| run_unrecognized_halt i success w tok :
    i < argc -> argv_at argv i = Some tok -> Command cmds tok = None ->
    h = true ->
    exact_run cmds argc argv h i success w 1 [Unrecognized i tok] w
| run_unrecognized_skip i success w tok code tr w' :
    i < argc -> argv_at argv i = Some tok -> Command cmds tok = None ->
    h = false ->
    exact_run cmds argc argv h (i + 1) success w code tr w' ->
    exact_run cmds argc argv h i success w code (Unrecognized i tok :: tr) w'
| run_too_few i success w tok a code tr w' :
    i < argc -> argv_at argv i = Some tok -> Command cmds tok = Some a ->
    argc <= i + param_count a ->
    exact_run cmds argc argv h (i + param_count a + 1) success w code tr w' ->
    exact_run cmds argc argv h i success w code (TooFew i tok :: tr) w'
| run_handler_true i success w tok a w1 code tr w' :
    i < argc -> argv_at argv i = Some tok -> Command cmds tok = Some a ->
    i + param_count a < argc ->
    fn a (params_at argv i (param_count a)) w = (true, w1) ->
    exact_run cmds argc argv h (i + param_count a + 1) success w1 code tr w' ->
    exact_run cmds argc argv h i success w code
      (Invoked i tok (params_at argv i (param_count a)) true :: tr) w'
| run_handler_false_halt i success w tok a w1 :
    i < argc -> argv_at argv i = Some tok -> Command cmds tok = Some a ->
    i + param_count a < argc ->
    fn a (params_at argv i (param_count a)) w = (false, w1) ->
    halt_on_fail a = true ->
    exact_run cmds argc argv h i success w 1
      [Invoked i tok (params_at argv i (param_count a)) false] w1
| run_handler_false_go i success w tok a w1 code tr w' :
    i < argc -> argv_at argv i = Some tok -> Command cmds tok = Some a ->
    i + param_count a < argc ->
    fn a (params_at argv i (param_count a)) w = (false, w1) ->
    halt_on_fail a = false ->
    exact_run cmds argc argv h (i + param_count a + 1) false w1 code tr w' ->
    exact_run cmds argc argv h i success w code
      (Invoked i tok (params_at argv i (param_count a)) false :: tr) w'.

(** * Properties *)

(** ** Strings as character arrays *)

Lemma list_ascii_length (s : string) :
  length (list_ascii_of_string s) = String.length s.
Proof. induction s as [|c s IH]; simpl; [reflexivity | now rewrite IH]. Qed.

Lemma list_ascii_get (s : string) (i : nat) :
  String.get i s = list_ascii_of_string s !! i.
Proof.
  revert i; induction s as [|c s IH]; intros [|i]; simpl; auto.
Qed.

(** ** The sanitizer *)

Lemma separator_not_alnum : is_alnum separator = false.
Proof. reflexivity. Qed.

Lemma sanitize_char_idem (c : ascii) :
  sanitize_char (sanitize_char c) = sanitize_char c.
Proof.
  unfold sanitize_char. destruct (is_alnum c) eqn:E.
  - now rewrite E.
  - now rewrite separator_not_alnum.
Qed.

(** After [n] iterations the first [n] characters are sanitized and the
    rest is untouched. *)
Lemma sanitize_loop_prefix (cmd : list ascii) (n : nat) :
  (n <= length cmd)%nat ->
  foldl sanitize_at cmd (seq 0 n) = map sanitize_char (take n cmd) ++ drop n cmd.
Proof.
  induction n as [|n IH]; intros Hn.
  - now rewrite take_0, drop_0.
  - rewrite seq_S, foldl_app, IH by lia. simpl.
    destruct (lookup_lt_is_Some_2 cmd n) as [c Hc]; [lia|].
    assert (Hlen : length (map sanitize_char (take n cmd)) = n).
    { rewrite length_map, length_take. lia. }
    unfold sanitize_at.
    rewrite lookup_app_r by lia.
    rewrite Hlen, Nat.sub_diag, (drop_S _ _ _ Hc). simpl.
    rewrite (take_S_r _ _ _ Hc), map_app. simpl.
    destruct (is_alnum c) eqn:E.
    + replace (sanitize_char c) with c by (unfold sanitize_char; now rewrite E).
      now rewrite <- app_assoc.
    + replace (sanitize_char c) with separator
        by (unfold sanitize_char; now rewrite E).
      rewrite insert_app_r_alt by lia.
      rewrite Hlen, Nat.sub_diag. simpl. now rewrite <- app_assoc.
Qed.

Lemma sanitize_chars_map (cmd : list ascii) :
  sanitize_chars cmd = map sanitize_char cmd.
Proof.
  unfold sanitize_chars. rewrite sanitize_loop_prefix by lia.
  now rewrite firstn_all, drop_all, app_nil_r.
Qed.

Lemma sanitize_list (s : string) :
  list_ascii_of_string (sanitize s) = map sanitize_char (list_ascii_of_string s).
Proof.
  unfold sanitize.
  now rewrite list_ascii_of_string_of_list_ascii, sanitize_chars_map.
Qed.

Lemma sanitize_length (s : string) :
  String.length (sanitize s) = String.length s.
Proof.
  now rewrite <- !list_ascii_length, sanitize_list, length_map.
Qed.

Lemma sanitize_idem (s : string) : sanitize (sanitize s) = sanitize s.
Proof.
  unfold sanitize at 1. rewrite sanitize_chars_map, sanitize_list.
  rewrite <- list_fmap_compose.
  unfold sanitize. rewrite sanitize_chars_map. f_equal.
  apply list_fmap_ext. intros _ c _. apply sanitize_char_idem.
Qed.

Example sanitize_add_two_values : sanitize "add_two_values" = "add-two-values".
Proof. reflexivity. Qed.

(** C6: the sanitizer keeps the length, keeps every ASCII letter and
    digit, replaces every other character by ['-'] (position by
    position), and sanitizing twice is sanitizing once. *)
Theorem sanitize_spec (s : string) :
  String.length (sanitize s) = String.length s
  /\ (forall i : nat,
        String.get i (sanitize s)
        = option_map (fun c => if is_alnum c then c else "-"%char) (String.get i s))
  /\ sanitize (sanitize s) = sanitize s.
Proof.
  split; [apply sanitize_length|]. split; [|apply sanitize_idem].
  intros i. rewrite !list_ascii_get, sanitize_list.
  change (map sanitize_char) with (fmap (M:=list) sanitize_char).
  rewrite list_lookup_fmap. now destruct (_ !! i).
Qed.

(** ** The registry *)

Section Registry.
Context {World : Type}.
Implicit Types (g : Globals World) (r : registration World).
Implicit Types (rs : list (registration World)).

Lemma Register_true name f count d hof g :
  fst (Register (World:=World) name f count d hof g) = true.
Proof. reflexivity. Qed.

Lemma register_call_Cmds g r :
  Cmds (register_call g r) = <[sanitize (reg_name r) := descriptor r]> (Cmds g).
Proof. reflexivity. Qed.

Lemma register_call_longest g r :
  longest_cmd (Information (register_call g r))
  = Z.max (longest_cmd (Information g))
          (to_u64 (Z.of_nat (String.length (sanitize (reg_name r))) + 3)).
Proof.
  unfold register_call, Register; simpl.
  destruct (Z.ltb_spec (longest_cmd (Information g))
              (to_u64 (Z.of_nat (String.length (sanitize (reg_name r))) + 3))); lia.
Qed.

Lemma register_all_app rs1 rs2 g :
  register_all (rs1 ++ rs2) g = register_all rs2 (register_all rs1 g).
Proof. unfold register_all. now rewrite foldl_app. Qed.

(** Calls for other names leave the entry alone. *)
Lemma register_all_other rs g (key : string) :
  Forall (fun r => sanitize (reg_name r) <> key) rs ->
  Cmds (register_all rs g) !! key = Cmds g !! key.
Proof.
  revert g; induction rs as [|r rs IH]; intros g Hrs; [reflexivity|].
  inversion Hrs as [|? ? Hr Hrest]; subst.
  change (register_all (r :: rs) g) with (register_all rs (register_call g r)).
  rewrite IH by assumption.
  rewrite register_call_Cmds. now apply lookup_insert_ne.
Qed.

(** Every key comes from a call or was there before. *)
Lemma register_all_key rs g (key : string) :
  is_Some (Cmds (register_all rs g) !! key) ->
  is_Some (Cmds g !! key) \/ exists r, In r rs /\ key = sanitize (reg_name r).
Proof.
  revert g; induction rs as [|r rs IH]; intros g Hk; [now left|].
  change (register_all (r :: rs) g) with (register_all rs (register_call g r)) in Hk.
  destruct (IH _ Hk) as [Hg | (r' & Hin & ->)].
  - rewrite register_call_Cmds in Hg.
    destruct (decide (sanitize (reg_name r) = key)) as [<- | Hne].
    + right. exists r. split; [now left | reflexivity].
    + rewrite lookup_insert_ne in Hg by assumption. now left.
  - right. exists r'. split; [now right | reflexivity].
Qed.

Lemma sanitize_chars_ok (name : string) : key_chars_ok (sanitize name).
Proof.
  unfold key_chars_ok. rewrite sanitize_list.
  apply List.Forall_forall. intros c Hc. apply in_map_iff in Hc as (c0 & <- & _).
  unfold sanitize_char. destruct (is_alnum c0) eqn:E; auto.
Qed.

Lemma sanitize_nonempty (name : string) : name <> "" -> sanitize name <> "".
Proof.
  intros Hne Heq. apply Hne.
  pose proof (sanitize_length name) as Hl. rewrite Heq in Hl.
  destruct name; [reflexivity | discriminate].
Qed.

Lemma longest_inv_initial : longest_inv (initial (World:=World)).
Proof. split; [simpl; lia|]. intros key c Hk. simpl in Hk. now rewrite lookup_empty in Hk. Qed.

Lemma longest_inv_register g r :
  name_fits r -> longest_inv g -> longest_inv (register_call g r).
Proof.
  unfold name_fits. intros Hfit [Hrange Hkeys].
  assert (Hw : to_u64 (Z.of_nat (String.length (sanitize (reg_name r))) + 3)
               = Z.of_nat (String.length (reg_name r)) + 3).
  { rewrite sanitize_length. unfold to_u64. apply Z.mod_small. lia. }
  split.
  - rewrite register_call_longest, Hw. lia.
  - intros key c. rewrite register_call_Cmds, register_call_longest, Hw.
    destruct (decide (sanitize (reg_name r) = key)) as [<- | Hne].
    + intros _. rewrite sanitize_length. lia.
    + rewrite lookup_insert_ne by assumption. intros Hk.
      specialize (Hkeys _ _ Hk). lia.
Qed.

Lemma longest_inv_register_all rs g :
  Forall name_fits rs -> longest_inv g -> longest_inv (register_all rs g).
Proof.
  revert g; induction rs as [|r rs IH]; intros g Hrs Hg; [assumption|].
  inversion Hrs; subst.
  change (register_all (r :: rs) g) with (register_all rs (register_call g r)).
  apply IH; [assumption|]. now apply longest_inv_register.
Qed.

Lemma help_padding_exact g (key : string) c :
  longest_inv g -> Cmds g !! key = Some c ->
  help_padding g key = longest_cmd (Information g) - Z.of_nat (String.length key)
  /\ 3 <= help_padding g key.
Proof.
  intros [Hrange Hkeys] Hk. specialize (Hkeys _ _ Hk).
  unfold help_padding, to_u64. rewrite Z.mod_small by lia. lia.
Qed.

End Registry.

(** C5: after any sequence of [Register] calls, looking up the sanitized
    form of a name gives the descriptor of the last call whose sanitized
    name is that one, whatever was registered under it before; and
    [Register] returns [true] on every input. *)
Theorem register_last_wins {World : Type} (g : Globals World)
    (pre post : list (registration World)) (r : registration World)
    (name : string) :
  sanitize (reg_name r) = sanitize name ->
  Forall (fun r' => sanitize (reg_name r') <> sanitize name) post ->
  Command (Cmds (register_all (pre ++ r :: post) g)) (sanitize name)
  = Some (descriptor r)
  /\ (forall n f count d hof (g' : Globals World),
        fst (Register n f count d hof g') = true).
Proof.
  intros Hr Hpost. split; [|intros; apply Register_true].
  unfold Command.
  rewrite register_all_app.
  change (register_all (r :: post) ?x) with (register_all post (register_call x r)).
  rewrite register_all_other by assumption.
  rewrite register_call_Cmds, Hr. apply lookup_insert_eq.
Qed.

Lemma register_last_wins_witness :
  Command (Cmds (register_all
                   (Demo.registrations ++ Demo.must_pass_again :: [Demo.another_cmd])
                   initial))
          (sanitize "must_pass")
  = Some (descriptor Demo.must_pass_again).
Proof.
  refine (proj1 (register_last_wins initial Demo.registrations [Demo.another_cmd]
                   Demo.must_pass_again "must_pass" _ _)).
  - reflexivity.
  - repeat constructor. vm_compute. discriminate.
Defined.

(** C9 as stated fails: a call of [Register] with the empty name stores
    the empty key. *)
Lemma empty_key_registered :
  exists key : string,
    is_Some (Cmds (register_all [Demo.nameless] initial) !! key)
    /\ ~ (key <> "" /\ key_chars_ok key).
Proof.
  exists "". split.
  - exists (descriptor Demo.nameless). reflexivity.
  - intros [Hne _]. now apply Hne.
Qed.

(** C9, amended: after any sequence of [Register] calls every key of the
    registry is the sanitized form of a registered name, consists only of
    ASCII letters, digits and ['-'], and is non-empty when no call was
    given an empty name. *)
Theorem registry_keys_sanitized {World : Type}
    (rs : list (registration World)) (key : string) :
  is_Some (Cmds (register_all rs initial) !! key) ->
  (exists r, In r rs /\ key = sanitize (reg_name r))
  /\ key_chars_ok key
  /\ (Forall (fun r => reg_name r <> "") rs -> key <> "").
Proof.
  intros Hk.
  destruct (register_all_key _ _ _ Hk) as [Hinit | (r & Hin & ->)].
  - simpl in Hinit. rewrite lookup_empty in Hinit. now destruct Hinit.
  - split; [now exists r|]. split; [apply sanitize_chars_ok|].
    intros Hall. apply sanitize_nonempty.
    rewrite List.Forall_forall in Hall. now apply Hall.
Qed.

Lemma registry_keys_sanitized_witness :
  key_chars_ok "add-two-values" /\ "add-two-values" <> "".
Proof.
  assert (Hk : is_Some (Cmds Demo.globals !! "add-two-values")).
  { exists (descriptor Demo.add_two_values). reflexivity. }
  destruct (registry_keys_sanitized Demo.registrations "add-two-values" Hk)
    as (_ & Hchars & Hne).
  split; [exact Hchars|]. apply Hne.
  repeat constructor; discriminate.
Defined.

(** C10: after any sequence of [Register] calls, [longest_cmd] is at
    least the length of every registered name plus 3, a call of
    [Register] never lowers it, the padding [help] computes in unsigned
    arithmetic is the exact difference and is at least 3, and every line
    of [help] after the version line is a name, at least 3 blanks and the
    doc string of that name. *)
Theorem longest_cmd_alignment {World : Type} (rs : list (registration World)) :
  Forall name_fits rs ->
  let g := register_all rs initial in
  (forall (name : string) c, Cmds g !! name = Some c ->
     Z.of_nat (String.length name) + 3 <= longest_cmd (Information g)
     /\ help_padding g name
        = longest_cmd (Information g) - Z.of_nat (String.length name)
     /\ 3 <= help_padding g name)
  /\ (forall (g' : Globals World) r,
        longest_cmd (Information g')
        <= longest_cmd (Information (register_call g' r)))
  /\ (forall line, In line (tail (help_lines g)) ->
        exists (name : string) c (n : nat),
          Cmds g !! name = Some c /\ (3 <= n)%nat
          /\ line = name +:+ spaces n +:+ doc c).
Proof.
  intros Hfit g.
  assert (Hinv : longest_inv g).
  { apply longest_inv_register_all; [assumption | apply longest_inv_initial]. }
  split; [|split].
  - intros name c Hk. split; [now apply (proj2 Hinv name c)|].
    now apply help_padding_exact with c.
  - intros g' r. rewrite register_call_longest. lia.
  - intros line Hin. unfold help_lines in Hin. simpl in Hin.
    apply in_map_iff in Hin as ([name c] & <- & Hin).
    apply list_elem_of_In, elem_of_map_to_list in Hin.
    destruct (help_padding_exact g name c Hinv Hin) as [_ Hpad].
    exists name, c, (Z.to_nat (help_padding g name)).
    split; [assumption|]. split; [lia | reflexivity].
Qed.

Lemma longest_cmd_alignment_witness :
  longest_cmd (Information Demo.globals) = 17
  /\ help_padding Demo.globals "help" = 13.
Proof.
  pose proof (longest_cmd_alignment Demo.registrations) as H.
  assert (Hfit : Forall name_fits Demo.registrations).
  { repeat constructor; unfold name_fits; simpl; lia. }
  destruct (H Hfit) as (Hkeys & _ & _).
  assert (Hk : Cmds Demo.globals !! "help"
               = Some (descriptor (mkRegistration "help" help_Run 0 "Print help." false))).
  { reflexivity. }
  destruct (Hkeys _ _ Hk) as (_ & Hpad & _).
  split; [reflexivity|]. exact (eq_trans Hpad eq_refl).
Defined.

(** ** The parameter view *)

(** C8: in a view of count [n], an index below [n] gives the string at
    that position of the wrapped array, and an index from [n] on gives
    the null parameter; neither case is undefined. *)
Theorem Params_index_spec (ps : Params) (i : Z) :
  (forall arr s,
     i < m_param_count ps -> m_params ps = Some arr ->
     arr !! Z.to_nat i = Some s ->
     Params_index ps i = Some (mkParam (Some s)))
  /\ (m_param_count ps <= i ->
      Params_index ps i = Some null_param /\ m_param null_param = None).
Proof.
  unfold Params_index. split.
  - intros arr s Hlt Harr Hs.
    destruct (Z.ltb_spec i (m_param_count ps)); [|lia].
    now rewrite Harr, Hs.
  - intros Hge. destruct (Z.ltb_spec i (m_param_count ps)); [lia|]. now split.
Qed.

Lemma Params_index_spec_witness :
  Params_index (mkParams (Some ["13"; "15"; "version"]) 2) 1 = Some (mkParam (Some "15"))
  /\ Params_index (mkParams (Some ["13"; "15"; "version"]) 2) 2 = Some null_param.
Proof.
  split.
  - apply (proj1 (Params_index_spec
                    (mkParams (Some ["13"; "15"; "version"]) 2) 1)
             ["13"; "15"; "version"] "15"); [simpl; lia | reflexivity | reflexivity].
  - apply (proj2 (Params_index_spec
                    (mkParams (Some ["13"; "15"; "version"]) 2) 2)).
    simpl; lia.
Defined.

(** ** Conversions *)

Lemma skip_ws_split (s : list ascii) :
  exists ws, s = ws ++ skip_ws s
    /\ Forall (fun c => is_space c = true) ws
    /\ (forall c, head (skip_ws s) = Some c -> is_space c = false).
Proof.
  induction s as [|c s (ws & Hs & Hws & Hhd)]; simpl.
  - exists []. repeat split; [constructor | discriminate].
  - destruct (is_space c) eqn:E.
    + exists (c :: ws). simpl. rewrite <- Hs. repeat split; auto.
    + exists []. repeat split; [constructor|].
      simpl. intros c' [= <-]. exact E.
Qed.

Lemma skip_ws_app (ws t : list ascii) :
  Forall (fun c => is_space c = true) ws ->
  (forall c, head t = Some c -> is_space c = false) ->
  skip_ws (ws ++ t) = t.
Proof.
  intros Hws Ht. induction Hws as [|c ws Hc _ IH]; simpl.
  - destruct t as [|c t]; [reflexivity|]. simpl. now rewrite (Ht c eq_refl).
  - now rewrite Hc.
Qed.

Lemma digits_prefix_split (s : list ascii) :
  exists rest, s = digits_prefix s ++ rest
    /\ Forall (fun c => is_digit c = true) (digits_prefix s)
    /\ (forall c, head rest = Some c -> is_digit c = false).
Proof.
  induction s as [|c s (rest & Hs & Hds & Hhd)]; simpl.
  - exists []. repeat split; [constructor | discriminate].
  - destruct (is_digit c) eqn:E.
    + exists rest. simpl. rewrite <- Hs. repeat split; auto.
    + exists (c :: s). repeat split; [constructor|].
      simpl. intros c' [= <-]. exact E.
Qed.

Lemma digits_prefix_app (ds rest : list ascii) :
  Forall (fun c => is_digit c = true) ds ->
  (forall c, head rest = Some c -> is_digit c = false) ->
  digits_prefix (ds ++ rest) = ds.
Proof.
  intros Hds Hrest. induction Hds as [|c ds Hc _ IH]; simpl.
  - destruct rest as [|c rest]; [reflexivity|]. simpl. now rewrite (Hrest c eq_refl).
  - now rewrite Hc, IH.
Qed.

Lemma read_sign_split (t : list ascii) :
  exists sgn, t = sgn ++ snd (read_sign t)
    /\ (sgn = [] \/ sgn = ["+"%char] \/ sgn = ["-"%char])
    /\ fst (read_sign t) = bool_decide (sgn = ["-"%char]).
Proof.
  destruct t as [|c t]; simpl.
  - exists []. auto.
  - destruct (Ascii.eqb_spec c "-") as [-> | Hm]; simpl.
    + exists ["-"%char]. auto.
    + destruct (Ascii.eqb_spec c "+") as [-> | Hp]; simpl.
      * exists ["+"%char]. auto.
      * exists []. auto.
Qed.

Lemma digit_not_sign (c : ascii) :
  is_digit c = true -> Ascii.eqb c "-" = false /\ Ascii.eqb c "+" = false.
Proof.
  intros Hc. split.
  - destruct (Ascii.eqb_spec c "-") as [-> | ]; [discriminate | reflexivity].
  - destruct (Ascii.eqb_spec c "+") as [-> | ]; [discriminate | reflexivity].
Qed.

Lemma digit_not_space (c : ascii) : is_digit c = true -> is_space c = false.
Proof. unfold is_digit, is_space. lia. Qed.

Lemma read_sign_field (sgn ds rest : list ascii) :
  (sgn = [] \/ sgn = ["+"%char] \/ sgn = ["-"%char]) ->
  ds <> [] -> Forall (fun c => is_digit c = true) ds ->
  read_sign (sgn ++ ds ++ rest) = (bool_decide (sgn = ["-"%char]), ds ++ rest)
  /\ (forall c, head (sgn ++ ds ++ rest) = Some c -> is_space c = false).
Proof.
  intros Hsgn Hne Hds. destruct ds as [|d ds]; [congruence|].
  inversion Hds as [|? ? Hd _]; subst.
  destruct Hsgn as [-> | [-> | ->]]; simpl.
  - destruct (digit_not_sign d Hd) as [-> ->]. split; [reflexivity|].
    intros c [= <-]. now apply digit_not_space.
  - split; [reflexivity|]. now intros c [= <-].
  - split; [reflexivity|]. now intros c [= <-].
Qed.

(** The extraction succeeds exactly on texts that start with an integer
    of the range, and stores that integer. *)
Lemma extract_integer_ok (lo hi : Z) (s : list ascii) (v : Z) :
  extract_integer lo hi s = (v, true)
  <-> exists ws sgn ds rest,
        integer_field s ws sgn ds rest
        /\ v = signed_decimal sgn ds /\ lo <= v <= hi.
Proof.
  unfold extract_integer, integer_field, signed_decimal. split.
  - destruct (skip_ws_split s) as (ws & Hs & Hws & _).
    destruct (read_sign_split (skip_ws s)) as (sgn & Ht & Hsgn & Hneg).
    destruct (read_sign (skip_ws s)) as [neg body]. simpl in Ht, Hneg.
    destruct (digits_prefix_split body) as (rest & Hb & Hds & Hrest).
    destruct (digits_prefix body) as [|d ds] eqn:Hdp; [discriminate|].
    set (val := if neg then _ else _).
    destruct (Z.ltb_spec val lo); [discriminate|].
    destruct (Z.ltb_spec hi val); [discriminate|].
    intros [= <-]. exists ws, sgn, (d :: ds), rest.
    repeat split; auto; try lia.
    + now rewrite Hs at 1; rewrite Ht at 1; rewrite Hb at 1.
    + subst val neg. now case_bool_decide; case_decide.
  - intros (ws & sgn & ds & rest & (-> & Hws & Hsgn & Hne & Hds & Hrest) & Hv & Hrange).
    destruct (read_sign_field sgn ds rest Hsgn Hne Hds) as [Hrs Hhd].
    rewrite skip_ws_app, Hrs, digits_prefix_app by assumption.
    destruct ds as [|d ds]; [congruence|].
    assert (Hval : (if bool_decide (sgn = ["-"%char])
                    then - decimal (d :: ds) else decimal (d :: ds)) = v).
    { subst v. now case_bool_decide; case_decide. }
    rewrite Hval.
    destruct (Z.ltb_spec v lo); [lia|].
    destruct (Z.ltb_spec hi v); [lia|]. reflexivity.
Qed.

Lemma extract_int64_result (s : string) :
  result (extract_int64 s) = true
  <-> starts_with_integer INT64_MIN INT64_MAX s (value (extract_int64 s)).
Proof.
  unfold starts_with_integer, extract_int64.
  destruct (extract_integer _ _ _) as [v ok] eqn:E. simpl.
  rewrite <- extract_integer_ok, E. split; [now intros -> | congruence].
Qed.

Lemma extract_bool_result (s : string) :
  result (extract_bool s) = true
  <-> exists v, starts_with_integer INT64_MIN INT64_MAX s v
        /\ (v = 0 \/ v = 1) /\ value (extract_bool s) = negb (v =? 0).
Proof.
  unfold starts_with_integer, extract_bool.
  destruct (extract_integer _ _ _) as [v ok] eqn:E. simpl. split.
  - intros H. apply andb_true_iff in H as [-> H].
    exists v. split; [now apply extract_integer_ok|]. split; [lia | reflexivity].
  - intros (v' & Hf & Hv & _). apply extract_integer_ok in Hf.
    rewrite E in Hf. injection Hf as -> ->. simpl. lia.
Qed.




(** ** The processing loop *)

Section Processor.
Context {World : Type}.
Variable cmds : gmap string (Cmd World).
Variable argc : Z.
Variable argv : list string.
Variable halt_on_unrecognized : bool.

Implicit Type i : Z.
Implicit Type success : bool.
Implicit Type w : World.
Implicit Type ev : event.

(** What one pass through the body can give. *)
Lemma Process_step_cases i success w sr evs w' :
  Process_step cmds argc argv halt_on_unrecognized i success w = (sr, evs, w') ->
  match sr with
  | Return code =>
      code = 1 /\ exists ev, evs = [ev] /\ is_hard_stop cmds halt_on_unrecognized ev = true
  | Next i' success' =>
      exists ev, evs = [ev] /\ is_hard_stop cmds halt_on_unrecognized ev = false
        /\ success' = success && negb (is_failure ev)
  | Undefined =>
      evs = [] \/ exists ev, evs = [ev] /\ is_hard_stop cmds halt_on_unrecognized ev = false
  end.
Proof.
  unfold Process_step, increment.
  destruct (argv_at argv i) as [tok|]; [|intros [= <- <- <-]; now left].
  destruct (Command cmds tok) as [a|] eqn:Hcmd.
  - destruct (_ <=? _).
    + destruct (_ =? _); intros [= <- <- <-].
      * right. eexists; split; [reflexivity|]. reflexivity.
      * eexists; split; [reflexivity|]. split; [reflexivity|].
        simpl. now rewrite andb_true_r.
    + destruct (fn a _ w) as [ret w1]. destruct ret.
      * destruct (_ =? _); intros [= <- <- <-].
        -- right. eexists; split; [reflexivity|]. reflexivity.
        -- eexists; split; [reflexivity|]. split; [reflexivity|].
           simpl. now rewrite andb_true_r.
      * destruct (halt_on_fail a) eqn:Hhalt.
        -- intros [= <- <- <-]. split; [reflexivity|].
           eexists; split; [reflexivity|]. simpl. now rewrite Hcmd, Hhalt.
        -- destruct (_ =? _); intros [= <- <- <-].
           ++ right. eexists; split; [reflexivity|]. simpl. now rewrite Hcmd, Hhalt.
           ++ eexists; split; [reflexivity|]. split.
              ** simpl. now rewrite Hcmd, Hhalt.
              ** simpl. now rewrite andb_false_r.
  - destruct halt_on_unrecognized eqn:Hhu.
    + intros [= <- <- <-]. split; [reflexivity|].
      eexists; split; [reflexivity|]. reflexivity.
    + destruct (_ =? _); intros [= <- <- <-].
      * right. eexists; split; [reflexivity|]. reflexivity.
      * eexists; split; [reflexivity|]. split; [reflexivity|].
        simpl. now rewrite andb_true_r.
Qed.

(** The two facts every run satisfies: a hard stop is the last event and
    gives exit code 1; and a run that returns gives 0 or 1, with 1
    exactly when [success] was or became false or a hard stop occurred. *)
Lemma Process_loop_trace fuel : forall i success w o tr w',
  Process_loop fuel cmds argc argv halt_on_unrecognized i success w = (o, tr, w') ->
  (forall pre ev post, tr = pre ++ ev :: post -> is_hard_stop cmds halt_on_unrecognized ev = true ->
     post = [] /\ o = Exit 1)
  /\ (forall code, o = Exit code ->
        (code = 0 \/ code = 1)
        /\ (code = 1 <->
            success = false
            \/ exists ev, In ev tr /\ (is_hard_stop cmds halt_on_unrecognized ev = true \/ is_failure ev = true))).
Proof.
  induction fuel as [|fuel IH]; intros i success w o tr w'; simpl.
  - intros [= <- <- <-]. split; [|discriminate].
    intros pre ev post H. now destruct pre.
  - destruct (i <? argc).
    2:{ intros [= <- <- <-]. split.
        - intros pre ev post H. now destruct pre.
        - intros code [= <-]. destruct success.
          + split; [now left|]. split; [discriminate|].
            intros [? | (ev & [] & _)]; discriminate.
          + split; [now right|]. split; auto. }
    destruct (Process_step cmds argc argv halt_on_unrecognized i success w) as [[sr evs] w1] eqn:Hstep.
    pose proof (Process_step_cases _ _ _ _ _ _ Hstep) as Hcases.
    destruct sr as [code | i' success' | ].
    + destruct Hcases as (-> & ev & -> & Hev). intros [= <- <- <-]. split.
      * intros pre ev' post H Hhard.
        destruct pre as [|e pre]; [|now destruct pre].
        injection H as <- <-. now split.
      * intros code [= <-]. split; [now right|]. split; auto.
        intros _. right. exists ev. split; [now left | now left].
    + destruct Hcases as (ev & -> & Hev & ->).
      destruct (Process_loop fuel cmds argc argv halt_on_unrecognized i'
                  (success && negb (is_failure ev)) w1) as [[o2 tr2] w2] eqn:Hrec.
      destruct (IH _ _ _ _ _ _ Hrec) as [IHlast IHcode].
      intros [= <- <- <-]. split.
      * intros pre ev' post H Hhard. destruct pre as [|e pre].
        -- injection H as <- _. congruence.
        -- injection H as _ H. now apply (IHlast pre ev' post).
      * intros code Ho. destruct (IHcode code Ho) as [Hrange Hiff].
        split; [assumption|]. rewrite Hiff. split.
        -- intros [Hs | (ev' & Hin & Hev')].
           ++ apply andb_false_iff in Hs as [Hs | Hs]; [now left|].
              right. exists ev. split; [now left|]. right.
              now apply negb_false_iff.
           ++ right. exists ev'. split; [now right | assumption].
        -- intros [-> | (ev' & [<- | Hin] & Hev')].
           ++ now left.
           ++ destruct Hev' as [Hev' | Hev']; [congruence|].
              left. rewrite Hev'. apply andb_false_r.
           ++ right. exists ev'. now split.
    + intros [= <- <- <-]. split; [|discriminate].
      intros pre ev' post H Hhard.
      destruct Hcases as [-> | (ev & -> & Hev)]; [now destruct pre|].
      destruct pre as [|e pre]; [|now destruct pre].
      injection H as <- _. congruence.
Qed.

(** Under [call_ok] a pass at an index in range is defined and moves
    forward. *)
Lemma Process_step_progress i success w :
  call_ok cmds argc argv -> 0 <= i < argc ->
  exists sr evs w',
    Process_step cmds argc argv halt_on_unrecognized i success w = (sr, evs, w')
    /\ match sr with
       | Return _ => True
       | Next i' _ => i < i'
       | Undefined => False
       end.
Proof.
  intros (Hargc & Hmax & Hfit) Hi.
  unfold Process_step, increment, argv_at.
  destruct (Z.ltb_spec i 0); [lia|].
  destruct (lookup_lt_is_Some_2 argv (Z.to_nat i)) as [tok ->]; [lia|].
  destruct (Command cmds tok) as [a|] eqn:Hcmd.
  - destruct (Hfit _ _ Hcmd) as [Hpos Hsum].
    assert (Hadd : add_assign i (param_count a) = i + param_count a).
    { unfold add_assign, to_i32, to_u32, INT_MAX in *.
      rewrite (Z.mod_small i) by lia.
      rewrite Z.mod_small by lia.
      destruct (Z.ltb_spec (i + param_count a) (2 ^ 31)); lia. }
    rewrite Hadd.
    destruct (Z.eqb_spec (i + param_count a) INT_MAX); [lia|].
    destruct (_ <=? _).
    + do 3 eexists. split; [reflexivity|]. simpl. lia.
    + destruct (fn a _ w) as [[] w1].
      * do 3 eexists. split; [reflexivity|]. simpl. lia.
      * destruct (halt_on_fail a).
        -- do 3 eexists. split; [reflexivity|]. exact I.
        -- do 3 eexists. split; [reflexivity|]. simpl. lia.
  - destruct halt_on_unrecognized.
    + do 3 eexists. split; [reflexivity|]. exact I.
    + destruct (Z.eqb_spec i INT_MAX); [lia|].
      do 3 eexists. split; [reflexivity|]. simpl. lia.
Qed.

(** Under [call_ok] the loop returns once the fuel covers the tokens
    that are left. *)
Lemma Process_loop_returns fuel : forall i success w,
  call_ok cmds argc argv -> 0 <= i ->
  (Z.to_nat (argc - i) < fuel)%nat ->
  exists code tr w', Process_loop fuel cmds argc argv halt_on_unrecognized i success w = (Exit code, tr, w').
Proof.
  induction fuel as [|fuel IH]; intros i success w Hok Hi Hfuel; [lia|].
  simpl. destruct (Z.ltb_spec i argc); [|eauto].
  destruct (Process_step_progress i success w Hok) as (sr & evs & w1 & -> & Hsr);
    [lia|].
  destruct sr as [code | i' success' | ]; [eauto | | contradiction].
  destruct (IH i' success' w1 Hok) as (code & tr & w2 & ->); [lia | lia |].
  eauto.
Qed.

Lemma Process_loop_S fuel i success w :
  Process_loop (S fuel) cmds argc argv halt_on_unrecognized i success w
  = if i <? argc then
      match Process_step cmds argc argv halt_on_unrecognized i success w with
      | (Return code, evs, w') => (Exit code, evs, w')
      | (Undefined, evs, w') => (Undef, evs, w')
      | (Next i' success', evs, w') =>
          let '(o, tr, w'') :=
            Process_loop fuel cmds argc argv halt_on_unrecognized i' success' w' in
          (o, evs ++ tr, w'')
      end
    else (Exit (if success then 0 else 1), [], w).
Proof. reflexivity. Qed.

(** More fuel does not change a run that ended. *)
Lemma Process_loop_more_fuel fuel : forall i success w o tr w',
  Process_loop fuel cmds argc argv halt_on_unrecognized i success w = (o, tr, w') ->
  o <> OutOfFuel ->
  Process_loop (S fuel) cmds argc argv halt_on_unrecognized i success w = (o, tr, w').
Proof.
  induction fuel as [|fuel IH]; intros i success w o tr w' Hrun Ho.
  - simpl in Hrun. injection Hrun as <- _ _. congruence.
  - revert Hrun. rewrite (Process_loop_S (S fuel)), (Process_loop_S fuel).
    destruct (i <? argc); [|auto].
    destruct (Process_step cmds argc argv halt_on_unrecognized i success w)
      as [[[code | i' success' | ] evs] w1]; auto.
    destruct (Process_loop fuel cmds argc argv halt_on_unrecognized i' success' w1)
      as [[o2 tr2] w2] eqn:Hrec.
    intros [= <- <- <-]. now rewrite (IH _ _ _ _ _ _ Hrec Ho).
Qed.

Lemma Process_loop_fuel_le fuel fuel' i success w o tr w' :
  Process_loop fuel cmds argc argv halt_on_unrecognized i success w = (o, tr, w') ->
  o <> OutOfFuel -> (fuel <= fuel')%nat ->
  Process_loop fuel' cmds argc argv halt_on_unrecognized i success w = (o, tr, w').
Proof.
  intros Hrun Ho Hle. induction Hle as [|fuel' _ IH]; [assumption|].
  now apply Process_loop_more_fuel.
Qed.

(** Under [call_ok] the loop returns, with one result for every amount
    of fuel that covers the tokens that are left. *)
Lemma Process_loop_result i success w :
  call_ok cmds argc argv -> 0 <= i ->
  exists code tr w', forall fuel,
    (Z.to_nat (argc - i) < fuel)%nat ->
    Process_loop fuel cmds argc argv halt_on_unrecognized i success w
    = (Exit code, tr, w').
Proof.
  intros Hok Hi.
  destruct (Process_loop_returns (S (Z.to_nat (argc - i))) i success w Hok Hi)
    as (code & tr & w' & Hrun); [lia|].
  exists code, tr, w'. intros fuel Hfuel.
  apply (Process_loop_fuel_le _ _ _ _ _ _ _ _ Hrun); [discriminate | lia].
Qed.

End Processor.

(** The events that make the exit code 1, spelled out. *)
Lemma failing_event_iff {World : Type} (cmds : gmap string (Cmd World))
    (halt_on_unrecognized : bool) (tr : list event) :
  (exists ev, In ev tr
     /\ (is_hard_stop cmds halt_on_unrecognized ev = true \/ is_failure ev = true))
  <-> (halt_on_unrecognized = true /\ exists i tok, In (Unrecognized i tok) tr)
      \/ (exists i tok ps a, In (Invoked i tok ps false) tr
            /\ Command cmds tok = Some a /\ halt_on_fail a = true)
      \/ (exists i tok ps, In (Invoked i tok ps false) tr).
Proof.
  split.
  - intros (ev & Hin & Hev). destruct ev as [i tok | i tok | i tok ps ret]; simpl in Hev.
    + destruct Hev as [Hev | Hev]; [|discriminate]. left. eauto.
    + destruct Hev; discriminate.
    + right. right. destruct ret.
      * destruct Hev; discriminate.
      * eauto.
  - intros [(Hhu & i & tok & Hin) | [(i & tok & ps & a & Hin & Hcmd & Hhalt)
                                    | (i & tok & ps & Hin)]].
    + exists (Unrecognized i tok). split; [assumption|]. now left.
    + exists (Invoked i tok ps false). split; [assumption|]. now right.
    + exists (Invoked i tok ps false). split; [assumption|]. now right.
Qed.

(** The registry of the README satisfies [call_ok] on short command lines. *)
Lemma demo_call_ok (argv : list string) :
  (length argv <= 1000)%nat ->
  call_ok (Cmds Demo.globals) (Z.of_nat (length argv)) argv.
Proof.
  intros Hlen. unfold call_ok, INT_MAX. split; [reflexivity|]. split; [lia|].
  change (Cmds Demo.globals) with
    (<[sanitize "another_cmd" := descriptor Demo.another_cmd]>
       (<[sanitize "must_pass" := descriptor Demo.must_pass]>
          (<[sanitize "add_two_values" := descriptor Demo.add_two_values]>
             (<[sanitize "help" := mkCmd help_Run "Print help." 0 false]>
                (<[sanitize "version" := mkCmd version_Run "Print version." 0 false]>
                   (∅ : gmap string (Cmd Demo.World))))))).
  repeat (apply map_Forall_insert_2; [simpl; lia|]).
  apply map_Forall_empty.
Qed.

(** The exit code of a run that returns. *)
Lemma Process_code {World : Type} (cmds : gmap string (Cmd World))
    (argc : Z) (argv : list string) (halt_on_unrecognized : bool) (w : World)
    fuel code tr w' :
  Process fuel cmds argc argv halt_on_unrecognized w = (Exit code, tr, w') ->
  (code = 0 \/ code = 1)
  /\ (code = 1 <->
      (halt_on_unrecognized = true /\ exists i tok, In (Unrecognized i tok) tr)
      \/ (exists i tok ps a, In (Invoked i tok ps false) tr
            /\ Command cmds tok = Some a /\ halt_on_fail a = true)
      \/ (exists i tok ps, In (Invoked i tok ps false) tr)).
Proof.
  intros Hrun.
  destruct (Process_loop_trace _ _ _ _ _ _ _ _ _ _ _ Hrun) as [_ Hcode].
  destruct (Hcode code eq_refl) as [Hrange Hiff].
  split; [assumption|]. rewrite Hiff, failing_event_iff.
  split; [intros [? | ?]; [discriminate | assumption] | now right].
Qed.

(** The run of the README: [app add-two-values 13 15] prints 28 and
    returns 0. *)
Example readme_add_two_values :
  Process 4 (Cmds Demo.globals) 4 ["app"; "add-two-values"; "13"; "15"] true []
  = (Exit 0,
     [Invoked 1 "add-two-values" (mkParams (Some ["13"; "15"]) 2) true],
     [Demo.Number 28]).
Proof. vm_compute. reflexivity. Qed.

(** Why [call_ok] is there: [i + a->param_count] is taken in [unsigned],
    so an arity at the end of [uint32_t] brings the index back.  With [spin]
    registered for 4294967295 parameters, [app spin] invokes the handler
    at index 1 over and over, and no amount of fuel ends the run. *)
Lemma arity_wrap_spins (fuel : nat) :
  fst (fst (Process fuel (Cmds Wrap.globals) 2 ["app"; "spin"] false tt))
  = OutOfFuel.
Proof.
  unfold Process. induction fuel as [|fuel IH]; [reflexivity|].
  cbn [Process_loop].
  change (1 <? 2) with true. cbv iota.
  assert (Hstep : Process_step (Cmds Wrap.globals) 2 ["app"; "spin"] false 1 true tt
                  = (Next 1 true,
                     [Invoked 1 "spin" (mkParams (Some []) (2 ^ 32 - 1)) true], tt))
    by (vm_compute; reflexivity).
  rewrite Hstep.
  destruct (Process_loop fuel (Cmds Wrap.globals) 2 ["app"; "spin"] false 1 true tt)
    as [[o tr] w]. exact IH.
Qed.

(** C1 as stated fails: on [app add-two-values version] the command at
    index 1 has too few parameters, the index moves from 1 to 4 and not
    to 2, and the registered command [version] at index 2 is never
    looked up. *)
Lemma too_few_advance_not_one :
  (exists a, Command (Cmds Demo.globals) "add-two-values" = Some a
             /\ 3 <= 1 + param_count a)
  /\ is_Some (Command (Cmds Demo.globals) "version")
  /\ Process_step (Cmds Demo.globals) 3 Demo.short_line false 1 true []
     = (Next 4 true, [TooFew 1 "add-two-values"], [])
  /\ Process_step (Cmds Demo.globals) 3 Demo.short_line false 1 true []
     <> (Next (1 + 1) true, [TooFew 1 "add-two-values"], [])
  /\ Process 10 (Cmds Demo.globals) 3 Demo.short_line false []
     = (Exit 0, [TooFew 1 "add-two-values"], []).
Proof.
  assert (Hstep : Process_step (Cmds Demo.globals) 3 Demo.short_line false 1 true []
                  = (Next 4 true, [TooFew 1 "add-two-values"], []))
    by (vm_compute; reflexivity).
  split; [|split; [|split; [|split]]].
  - exists (descriptor Demo.add_two_values). split; [reflexivity | simpl; lia].
  - eexists. reflexivity.
  - exact Hstep.
  - rewrite Hstep. intros H. injection H as H. lia.
  - vm_compute. reflexivity.
Qed.

(** C1, amended: when [Process] at index [i] finds a recognized command
    whose arity exceeds the number of tokens left after [i]
    ([i + arity >= argc]), it reports too few parameters, does not invoke
    the handler, and advances [i] by [1 + arity], past the last token: the
    loop ends there, no later token is looked up, and [Process] returns 0
    unless a handler failed before. *)
Theorem too_few_ends_run {World : Type} (cmds : gmap string (Cmd World))
    (argc : Z) (argv : list string) (halt_on_unrecognized : bool)
    (i : Z) (success : bool) (w : World) (tok : string) (a : Cmd World) :
  call_ok cmds argc argv -> 0 <= i < argc ->
  argv_at argv i = Some tok -> Command cmds tok = Some a ->
  argc <= i + param_count a ->
  1 <= param_count a
  /\ Process_step cmds argc argv halt_on_unrecognized i success w
     = (Next (i + param_count a + 1) success, [TooFew i tok], w)
  /\ forall fuel,
       Process_loop (S (S fuel)) cmds argc argv halt_on_unrecognized i success w
       = (Exit (if success then 0 else 1), [TooFew i tok], w).
Proof.
  intros (Hargc & Hmax & Hfit) Hi Htok Hcmd Hfew.
  destruct (Hfit _ _ Hcmd) as [Hpos Hsum]. unfold INT_MAX in *.
  assert (Hstep : Process_step cmds argc argv halt_on_unrecognized i success w
                  = (Next (i + param_count a + 1) success, [TooFew i tok], w)).
  { unfold Process_step, increment, add_assign, to_i32, to_u32, INT_MAX.
    rewrite Htok, Hcmd.
    rewrite (Z.mod_small i), (Z.mod_small argc), (Z.mod_small (i + param_count a))
      by lia.
    destruct (Z.leb_spec argc (i + param_count a)); [|lia].
    destruct (Z.ltb_spec (i + param_count a) (2 ^ 31)); [|lia].
    destruct (Z.eqb_spec (i + param_count a) (2 ^ 31 - 1)); [lia | reflexivity]. }
  split; [lia|]. split; [exact Hstep|].
  intros fuel. simpl.
  destruct (Z.ltb_spec i argc); [|lia]. rewrite Hstep.
  destruct (Z.ltb_spec (i + param_count a + 1) argc); [lia | reflexivity].
Qed.

Lemma too_few_ends_run_witness :
  Process_loop 2 (Cmds Demo.globals) 3 ["app"; "add-two-values"; "5"] false 1 true []
  = (Exit 0, [TooFew 1 "add-two-values"], []).
Proof.
  apply (proj2 (proj2 (too_few_ends_run (Cmds Demo.globals) 3
                         ["app"; "add-two-values"; "5"] false 1 true []
                         "add-two-values" (descriptor Demo.add_two_values)
                         (demo_call_ok ["app"; "add-two-values"; "5"]
                            ltac:(simpl; lia))
                         ltac:(lia) eq_refl eq_refl ltac:(simpl; lia))) 0%nat).
Defined.

(** C3: when a handler returns false for a command registered with
    [halt_on_fail], [Process] returns 1 at that point: in every run the
    failed invocation is the last event, so no later token is looked up
    and no later handler is invoked. *)
Theorem halt_on_fail_stops {World : Type} (cmds : gmap string (Cmd World))
    (argc : Z) (argv : list string) (halt_on_unrecognized : bool)
    (tok : string) (a : Cmd World) :
  Command cmds tok = Some a -> halt_on_fail a = true ->
  (forall fuel (w : World) o tr w' pre post i ps,
     Process fuel cmds argc argv halt_on_unrecognized w = (o, tr, w') ->
     tr = pre ++ Invoked i tok ps false :: post ->
     o = Exit 1 /\ post = [])
  /\ (forall fuel i success (w w' : World),
        i < argc -> argv_at argv i = Some tok ->
        to_u32 (to_u32 i + param_count a) < to_u32 argc ->
        let ps := mkParams (if 0 <? param_count a
                            then Some (drop (Z.to_nat (i + 1)) argv) else None)
                           (param_count a) in
        fn a ps w = (false, w') ->
        Process_loop (S fuel) cmds argc argv halt_on_unrecognized i success w
        = (Exit 1, [Invoked i tok ps false], w')).
Proof.
  intros Hcmd Hhalt. split.
  - intros fuel w o tr w' pre post i ps Hrun Htr.
    destruct (Process_loop_trace _ _ _ _ _ _ _ _ _ _ _ Hrun) as [Hlast _].
    destruct (Hlast pre _ post Htr) as [-> ->]; [|now split].
    simpl. now rewrite Hcmd, Hhalt.
  - intros fuel i success w w' Hi Htok Henough ps Hfn. simpl.
    destruct (Z.ltb_spec i argc); [|lia].
    unfold Process_step. rewrite Htok, Hcmd.
    destruct (Z.leb_spec (to_u32 argc) (to_u32 (to_u32 i + param_count a))); [lia|].
    fold ps. now rewrite Hfn, Hhalt.
Qed.

Lemma halt_on_fail_stops_witness :
  Process 4 (Cmds Demo.globals) 3 ["app"; "must-pass"; "another-cmd"] false []
  = (Exit 1, [Invoked 1 "must-pass" (mkParams None 0) false], []).
Proof.
  apply (proj2 (halt_on_fail_stops (Cmds Demo.globals) 3
                  ["app"; "must-pass"; "another-cmd"] false
                  "must-pass" (descriptor Demo.must_pass) eq_refl eq_refl)
           3%nat 1 true [] []); [lia | reflexivity | reflexivity | reflexivity].
Defined.

(** C4: under [halt_on_unrecognized] an unrecognized token is the last
    event of every run and the run returns 1, so no later token is looked
    up or invoked; without it the loop moves to the next index with
    [success] unchanged and no handler called, and a run in which no
    handler returned false returns 0. *)
Theorem unrecognized_policy {World : Type} (cmds : gmap string (Cmd World))
    (argc : Z) (argv : list string) (i : Z) (tok : string) :
  argv_at argv i = Some tok -> Command cmds tok = None ->
  i < argc -> argc <= INT_MAX ->
  (forall fuel (w : World) o tr w' pre post j tok',
     Process fuel cmds argc argv true w = (o, tr, w') ->
     tr = pre ++ Unrecognized j tok' :: post ->
     o = Exit 1 /\ post = [])
  /\ (forall fuel success (w : World),
        Process_loop (S fuel) cmds argc argv true i success w
        = (Exit 1, [Unrecognized i tok], w))
  /\ (forall success (w : World),
        Process_step cmds argc argv false i success w
        = (Next (i + 1) success, [Unrecognized i tok], w))
  /\ (forall fuel (w : World) code tr w',
        Process fuel cmds argc argv false w = (Exit code, tr, w') ->
        (forall j tok' ps, ~ In (Invoked j tok' ps false) tr) ->
        code = 0).
Proof.
  intros Htok Hcmd Hi Hmax. split; [|split; [|split]].
  - intros fuel w o tr w' pre post j tok' Hrun Htr.
    destruct (Process_loop_trace _ _ _ _ _ _ _ _ _ _ _ Hrun) as [Hlast _].
    destruct (Hlast pre _ post Htr) as [-> ->]; [reflexivity | now split].
  - intros fuel success w. simpl.
    destruct (Z.ltb_spec i argc); [|lia].
    unfold Process_step. now rewrite Htok, Hcmd.
  - intros success w. unfold Process_step, increment. rewrite Htok, Hcmd.
    destruct (Z.eqb_spec i INT_MAX); [lia | reflexivity].
  - intros fuel w code tr w' Hrun Hnofail.
    destruct (Process_code _ _ _ _ _ _ _ _ _ Hrun) as [[-> | ->] Hiff];
      [reflexivity|].
    destruct (proj1 Hiff eq_refl)
      as [[Hhu _] | [(j & tok' & ps & _ & Hin & _) | (j & tok' & ps & Hin)]].
    + discriminate.
    + now destruct (Hnofail j tok' ps).
    + now destruct (Hnofail j tok' ps).
Qed.

Lemma unrecognized_policy_witness :
  Process 4 (Cmds Demo.globals) 3 ["app"; "bogus"; "version"] true []
  = (Exit 1, [Unrecognized 1 "bogus"], [])
  /\ Process_step (Cmds Demo.globals) 3 ["app"; "bogus"; "version"] false 1 true []
     = (Next (1 + 1) true, [Unrecognized 1 "bogus"], []).
Proof.
  pose proof (unrecognized_policy (Cmds Demo.globals) 3
                ["app"; "bogus"; "version"] 1 "bogus" eq_refl eq_refl
                ltac:(lia) ltac:(unfold INT_MAX; lia)) as (_ & Hstop & Hnext & _).
  split; [apply (Hstop 3%nat true []) | apply (Hnext true [])].
Defined.

(** * Further properties of the code *)

(** ** The sanitizer and the registry *)

Lemma sanitize_char_fixed (c : ascii) :
  sanitize_char c = c <-> is_alnum c = true \/ c = separator.
Proof.
  unfold sanitize_char. destruct (is_alnum c) eqn:E.
  - split; auto.
  - split; [intros <-; now right | intros [? | ->]; [discriminate | reflexivity]].
Qed.

Lemma list_ascii_inj (s t : string) :
  list_ascii_of_string s = list_ascii_of_string t -> s = t.
Proof.
  intros H. rewrite <- (string_of_list_ascii_of_string s),
    <- (string_of_list_ascii_of_string t). now rewrite H.
Qed.

(** The names the sanitizer leaves alone are exactly those made of ASCII
    letters, digits and ['-']: only such a name is reachable from the
    command line under the spelling it was registered with. *)
Theorem sanitize_fixed_iff (name : string) :
  sanitize name = name <-> key_chars_ok name.
Proof.
  unfold key_chars_ok. split.
  - intros <-. apply sanitize_chars_ok.
  - intros Hok. apply list_ascii_inj. rewrite sanitize_list.
    induction Hok as [|c l Hc _ IH]; [reflexivity|].
    simpl. rewrite IH. f_equal. now apply sanitize_char_fixed.
Qed.

Section RegistryExtra.
Context {World : Type}.
Implicit Types (g : Globals World) (r : registration World).
Implicit Types (rs : list (registration World)).

(** No call of [Register] removes a key. *)
Lemma register_all_keeps rs g (key : string) :
  is_Some (Cmds g !! key) -> is_Some (Cmds (register_all rs g) !! key).
Proof.
  revert g. induction rs as [|r rs IH]; intros g Hk; [exact Hk|].
  change (register_all (r :: rs) g) with (register_all rs (register_call g r)).
  apply IH. rewrite register_call_Cmds.
  apply lookup_insert_is_Some'. now right.
Qed.

(** A key is absent from the registry exactly when no call of [Register]
    had that sanitized name: [Command] then gives [nullptr]. *)
Theorem Command_absent_iff rs (key : string) :
  Command (Cmds (register_all rs initial)) key = None
  <-> Forall (fun r => sanitize (reg_name r) <> key) rs.
Proof.
  unfold Command. split.
  - intros Hnone. apply List.Forall_forall. intros r Hin Heq.
    apply in_split in Hin as (pre & post & ->).
    assert (Hsome : is_Some (Cmds (register_all (pre ++ r :: post) initial) !! key)).
    { rewrite register_all_app.
      change (register_all (r :: post) ?x)
        with (register_all post (register_call x r)).
      apply register_all_keeps.
      rewrite register_call_Cmds, Heq, lookup_insert_eq. eauto. }
    rewrite Hnone in Hsome. now destruct Hsome.
  - intros Hall. rewrite register_all_other by assumption. apply lookup_empty.
Qed.

(** A token with a character other than an ASCII letter, a digit or ['-']
    is never a key of the registry: [Process] reports it as unrecognized
    whatever was registered. *)
Theorem unclean_token_unrecognized rs (tok : string) (argc i : Z)
    (argv : list string) (success : bool) (w : World) :
  ~ key_chars_ok tok -> argv_at argv i = Some tok ->
  Command (Cmds (register_all rs initial)) tok = None
  /\ snd (fst (Process_step (Cmds (register_all rs initial)) argc argv false
                 i success w))
     = [Unrecognized i tok]
  /\ Process_step (Cmds (register_all rs initial)) argc argv true i success w
     = (Return 1, [Unrecognized i tok], w).
Proof.
  intros Hbad Htok.
  assert (Hnone : Command (Cmds (register_all rs initial)) tok = None).
  { unfold Command.
    destruct (Cmds (register_all rs initial) !! tok) as [c|] eqn:Hk; [|reflexivity].
    destruct (register_all_key rs initial tok) as [Hinit | (r & _ & ->)].
    - rewrite Hk. eauto.
    - simpl in Hinit. rewrite lookup_empty in Hinit. now destruct Hinit.
    - destruct Hbad. apply sanitize_chars_ok. }
  split; [exact Hnone|].
  unfold Process_step. rewrite Htok, Hnone. now split.
Qed.

(** Calls of [Register] under other names leave an entry as it is. *)
Theorem Register_frame rs g (key : string) :
  Forall (fun r => sanitize (reg_name r) <> key) rs ->
  Command (Cmds (register_all rs g)) key = Command (Cmds g) key
  /\ app_name (Information (register_all rs g)) = app_name (Information g)
  /\ version (Information (register_all rs g)) = version (Information g).
Proof.
  intros Hrs. split; [now apply register_all_other|].
  clear Hrs. revert g. induction rs as [|r rs IH]; intros g; [now split|].
  change (register_all (r :: rs) g) with (register_all rs (register_call g r)).
  destruct (IH (register_call g r)) as [-> ->]. now split.
Qed.

Lemma longest_as_max (a b : Z) : (if a <? b then b else a) = Z.max a b.
Proof. destruct (Z.ltb_spec a b); lia. Qed.

(** Registering the same command twice is registering it once.  Two
    registrations under different sanitized names can be made in either
    order as far as the code can tell through lookups, [Information] and
    the set of lines of [help]: the order in which the map is iterated,
    and with it the order of the lines of [help], is not covered. *)
Theorem Register_twice_and_swap g r1 r2 :
  register_call (register_call g r1) r1 = register_call g r1
  /\ (sanitize (reg_name r1) <> sanitize (reg_name r2) ->
      let g12 := register_call (register_call g r1) r2 in
      let g21 := register_call (register_call g r2) r1 in
      (forall key : string, Command (Cmds g12) key = Command (Cmds g21) key)
      /\ Information g12 = Information g21
      /\ (forall line, In line (help_lines g12) <-> In line (help_lines g21))
      /\ length (help_lines g12) = length (help_lines g21)).
Proof.
  split.
  - unfold register_call, Register; simpl. f_equal.
    + apply insert_insert_eq.
    + f_equal. rewrite !longest_as_max. lia.
  - intros Hne g12 g21.
    assert (Hcmds : Cmds g12 = Cmds g21).
    { unfold g12, g21. rewrite !register_call_Cmds. now apply insert_insert_ne. }
    assert (Hinfo : Information g12 = Information g21).
    { unfold g12, g21, register_call, Register; simpl. f_equal.
      rewrite !longest_as_max. lia. }
    assert (Hlines : help_lines g12 = help_lines g21).
    { unfold help_lines, version_line, help_line, help_padding.
      now rewrite Hcmds, Hinfo. }
    split; [intros key; now rewrite Hcmds|]. split; [exact Hinfo|].
    split; [intros line; now rewrite Hlines | now rewrite Hlines].
Qed.

(** [Init] only sets the two strings [version] prints.  In a start-up
    sequence that mixes [Init] and [Register] in any order, the registry
    and [longest_cmd] are those of the [Register] calls alone, and the
    application name and version are those of the last [Init] (the
    initial ones without any). *)
Theorem Init_interleaved (cs : list (setup_call World)) g :
  Cmds (setup cs g) = Cmds (register_all (registrations_of cs) g)
  /\ longest_cmd (Information (setup cs g))
     = longest_cmd (Information (register_all (registrations_of cs) g))
  /\ (app_name (Information (setup cs g)), version (Information (setup cs g)))
     = default (app_name (Information g), version (Information g)) (last_Init cs).
Proof.
  revert g. induction cs as [|c cs IH] using rev_ind; intros g; [now repeat split|].
  destruct (IH g) as (HC & HL & HI).
  assert (Hs : setup (cs ++ [c]) g = setup_step (setup cs g) c)
    by (unfold setup; now rewrite foldl_app).
  rewrite Hs. destruct c as [r | name ver].
  - assert (Hr : registrations_of (cs ++ [CallRegister r]) = registrations_of cs ++ [r])
      by (unfold registrations_of; now rewrite omap_app).
    assert (Hi : last_Init (cs ++ [CallRegister r]) = last_Init cs)
      by (unfold last_Init; rewrite omap_app; simpl; now rewrite app_nil_r).
    rewrite Hr, Hi, register_all_app.
    change (register_all [r] ?x) with (register_call x r).
    cbn [setup_step].
    rewrite !register_call_Cmds, !register_call_longest, HC, HL.
    repeat split. exact HI.
  - assert (Hr : registrations_of (cs ++ [CallInit name ver]) = registrations_of cs)
      by (unfold registrations_of; rewrite omap_app; simpl; now rewrite app_nil_r).
    assert (Hi : last_Init (cs ++ [CallInit name ver]) = Some (name, ver))
      by (unfold last_Init; rewrite omap_app; simpl; now rewrite last_snoc).
    rewrite Hr, Hi. cbn [setup_step]. now repeat split.
Qed.

(** After at least one call of [Register], [longest_cmd] is exactly the
    length of some registered name plus 3: the longest name is followed
    by exactly 3 blanks in [help]. *)
Theorem longest_cmd_attained rs :
  Forall name_fits rs -> rs <> [] ->
  exists (key : string) c,
    Cmds (register_all rs initial) !! key = Some c
    /\ longest_cmd (Information (register_all rs initial))
       = Z.of_nat (String.length key) + 3
    /\ help_padding (register_all rs initial) key = 3.
Proof.
  intros Hfit Hne.
  set (attained := fun g => exists (key : string) c,
         Cmds g !! key = Some c
         /\ longest_cmd (Information g) = Z.of_nat (String.length key) + 3).
  assert (Hstep : forall g r, name_fits r ->
            longest_cmd (Information g) = 0 \/ attained g ->
            attained (register_call g r)).
  { intros g r Hr Hg. unfold attained, name_fits in *.
    assert (Hw : to_u64 (Z.of_nat (String.length (sanitize (reg_name r))) + 3)
                 = Z.of_nat (String.length (sanitize (reg_name r))) + 3).
    { rewrite sanitize_length. unfold to_u64. apply Z.mod_small. lia. }
    destruct (Z.le_gt_cases (longest_cmd (Information g))
                (Z.of_nat (String.length (sanitize (reg_name r))) + 3)) as [Hle | Hgt].
    - exists (sanitize (reg_name r)), (descriptor r).
      rewrite register_call_Cmds, register_call_longest, Hw, lookup_insert_eq.
      split; [reflexivity | lia].
    - destruct Hg as [H0 | (key & c & Hk & Hl)]; [lia|].
      exists key, c. rewrite register_call_Cmds, register_call_longest, Hw.
      split; [|lia]. rewrite lookup_insert_ne; [assumption|].
      intros <-. lia. }
  assert (Hall : forall rs' g, Forall name_fits rs' -> attained g ->
            attained (register_all rs' g)).
  { induction rs' as [|r rs' IH]; intros g Hrs' Hg; [exact Hg|].
    inversion Hrs'; subst.
    change (register_all (r :: rs') g) with (register_all rs' (register_call g r)).
    apply IH; [assumption|]. apply Hstep; [assumption | now right]. }
  destruct rs as [|r rs]; [congruence|]. inversion Hfit; subst.
  change (register_all (r :: rs) initial)
    with (register_all rs (register_call initial r)).
  destruct (Hall rs (register_call initial r)) as (key & c & Hk & Hl);
    [assumption | apply Hstep; [assumption | now left] |].
  exists key, c. split; [exact Hk|]. split; [exact Hl|].
  unfold help_padding, to_u64. rewrite Hl.
  replace (Z.of_nat (String.length key) + 3 - Z.of_nat (String.length key))
    with 3 by lia. reflexivity.
Qed.

End RegistryExtra.

Lemma longest_cmd_attained_witness :
  exists (key : string) c,
    Cmds Demo.globals !! key = Some c
    /\ longest_cmd (Information Demo.globals) = Z.of_nat (String.length key) + 3
    /\ help_padding Demo.globals key = 3.
Proof.
  apply (longest_cmd_attained Demo.registrations).
  - repeat constructor; unfold name_fits; simpl; lia.
  - discriminate.
Defined.

(** ** The output of [help] *)

Lemma string_app_length (a b : string) :
  String.length (a +:+ b) = (String.length a + String.length b)%nat.
Proof. induction a as [|c a IH]; simpl; [reflexivity | now rewrite IH]. Qed.

Lemma spaces_length (n : nat) : String.length (spaces n) = n.
Proof. induction n as [|n IH]; simpl; [reflexivity | now rewrite IH]. Qed.

(** [help] prints the version line and then one line per registered
    command, none left out; in each line the name and the blanks after it
    take [longest_cmd] columns, so all doc strings start in one column. *)
Theorem help_lines_aligned {World : Type} (rs : list (registration World)) :
  Forall name_fits rs ->
  let g := register_all rs initial in
  length (help_lines g) = S (size (Cmds g))
  /\ head (help_lines g) = Some (version_line g)
  /\ forall (name : string) c, Cmds g !! name = Some c ->
       exists n : nat,
         In (name +:+ spaces n +:+ doc c) (tail (help_lines g))
         /\ Z.of_nat (String.length (name +:+ spaces n))
            = longest_cmd (Information g).
Proof.
  intros Hfit g.
  assert (Hinv : longest_inv g).
  { apply longest_inv_register_all; [assumption | apply longest_inv_initial]. }
  split; [|split].
  - unfold help_lines. simpl. now rewrite length_map, length_map_to_list.
  - reflexivity.
  - intros name c Hk.
    destruct (help_padding_exact g name c Hinv Hk) as [Hpad Hge].
    exists (Z.to_nat (help_padding g name)). split.
    + unfold help_lines. simpl. apply in_map_iff. exists (name, c).
      split; [reflexivity|]. now apply list_elem_of_In, elem_of_map_to_list.
    + rewrite string_app_length, spaces_length. lia.
Qed.

Lemma help_lines_aligned_witness :
  length (help_lines Demo.globals) = 6%nat.
Proof.
  destruct (help_lines_aligned Demo.registrations) as (Hlen & _ & _).
  - repeat constructor; unfold name_fits; simpl; lia.
  - exact (eq_trans Hlen eq_refl).
Defined.

(** ** [Process] within the range of [int] *)

Section ProcessorExtra.
Context {World : Type}.
Variable cmds : gmap string (Cmd World).
Variable argc : Z.
Variable argv : list string.
Variable halt_on_unrecognized : bool.
Implicit Type i : Z.
Implicit Type success : bool.
Implicit Type w : World.
Implicit Type ev : event.

(** Within [call_ok] the conversions of [Process] change no value. *)
Lemma Process_step_exact_eq i success w :
  call_ok cmds argc argv -> 0 <= i < argc ->
  Process_step cmds argc argv halt_on_unrecognized i success w
  = Process_step_exact cmds argc argv halt_on_unrecognized i success w.
Proof.
  intros (Hargc & Hmax & Hfit) Hi.
  unfold Process_step, Process_step_exact, params_at, increment.
  destruct (argv_at argv i) as [tok|]; [|reflexivity].
  destruct (Command cmds tok) as [a|] eqn:Hcmd.
  - destruct (Hfit _ _ Hcmd) as [Hpos Hsum]. unfold INT_MAX in *.
    assert (Hadd : add_assign i (param_count a) = i + param_count a).
    { unfold add_assign, to_i32, to_u32.
      rewrite (Z.mod_small i) by lia. rewrite Z.mod_small by lia.
      destruct (Z.ltb_spec (i + param_count a) (2 ^ 31)); lia. }
    assert (Hcmp : (to_u32 argc <=? to_u32 (to_u32 i + param_count a))
                   = (argc <=? i + param_count a)).
    { unfold to_u32. now rewrite (Z.mod_small i), (Z.mod_small argc), Z.mod_small by lia. }
    rewrite Hadd, Hcmp.
    destruct (Z.eqb_spec (i + param_count a) (2 ^ 31 - 1)); [lia|].
    reflexivity.
  - destruct (Z.eqb_spec i INT_MAX); [lia | reflexivity].
Qed.

Lemma params_at_index i n j s :
  0 <= i -> 0 <= j < n -> argv !! Z.to_nat (i + 1 + j) = Some s ->
  Params_index (params_at argv i n) j = Some (mkParam (Some s)).
Proof.
  intros Hi Hj Hs. unfold Params_index, params_at. simpl.
  destruct (Z.ltb_spec j n); [|lia].
  destruct (Z.ltb_spec 0 n); [|lia].
  rewrite lookup_drop.
  replace (Z.to_nat (i + 1) + Z.to_nat j)%nat with (Z.to_nat (i + 1 + j)) by lia.
  now rewrite Hs.
Qed.

(** One pass of the body within [call_ok]: one event, about the token at
    [i], sound, and the loop goes on behind the command and its
    parameters. *)
Lemma Process_step_sound i success w sr evs w' :
  call_ok cmds argc argv -> 0 <= i < argc ->
  Process_step cmds argc argv halt_on_unrecognized i success w = (sr, evs, w') ->
  exists ev, evs = [ev] /\ event_index ev = i
    /\ argv !! Z.to_nat i = Some (event_token ev)
    /\ event_sound cmds argc argv ev
    /\ (is_invocation ev = false -> w' = w)
    /\ match sr with
       | Return _ => True
       | Next i' _ => i' = event_next cmds ev /\ i < i'
       | Undefined => False
       end.
Proof.
  intros Hok Hi. rewrite Process_step_exact_eq by assumption.
  destruct Hok as (Hargc & Hmax & Hfit).
  unfold Process_step_exact, argv_at.
  destruct (Z.ltb_spec i 0); [lia|].
  destruct (argv !! Z.to_nat i) as [tok|] eqn:Htok.
  2:{ apply lookup_ge_None in Htok. lia. }
  destruct (Command cmds tok) as [a|] eqn:Hcmd.
  - destruct (Hfit _ _ Hcmd) as [Hpos Hsum]. cbv zeta.
    destruct (Z.leb_spec argc (i + param_count a)).
    + intros [= <- <- <-]. eexists. split; [reflexivity|].
      split; [reflexivity|]. split; [solve [reflexivity | exact Htok]|].
      split; [now exists a|]. split; [reflexivity|].
      unfold event_next. simpl. rewrite Hcmd. split; [reflexivity | lia].
    + assert (Hsound : forall ret, event_sound cmds argc argv
                (Invoked i tok (params_at argv i (param_count a)) ret)).
      { intros ret. exists a. split; [assumption|]. split; [lia|].
        split; [reflexivity|]. intros j Hj.
        destruct (lookup_lt_is_Some_2 argv (Z.to_nat (i + 1 + j))) as [s Hs]; [lia|].
        exists s. split; [exact Hs|]. apply params_at_index; [lia | lia | exact Hs]. }
      assert (Hnext : forall ret,
                event_next cmds (Invoked i tok (params_at argv i (param_count a)) ret)
                = i + param_count a + 1).
      { intros ret. unfold event_next. simpl. now rewrite Hcmd. }
      destruct (fn a _ w) as [ret w1].
      assert (Hcommon : forall sr0,
                match sr0 with
                | Return _ => True
                | Next i' _ => i' = i + param_count a + 1
                | Undefined => False
                end ->
                exists ev,
                  [Invoked i tok (params_at argv i (param_count a)) ret] = [ev]
                  /\ event_index ev = i
                  /\ Some tok = Some (event_token ev)
                  /\ event_sound cmds argc argv ev
                  /\ (is_invocation ev = false -> w1 = w)
                  /\ match sr0 with
                     | Return _ => True
                     | Next i' _ => i' = event_next cmds ev /\ i < i'
                     | Undefined => False
                     end).
      { intros sr0 Hsr0. eexists. split; [reflexivity|].
        split; [reflexivity|]. split; [solve [reflexivity | exact Htok]|].
        split; [apply Hsound|]. split; [discriminate|].
        destruct sr0 as [code | i' success' | ]; auto. rewrite Hnext. split; [assumption | lia]. }
      destruct ret.
      * intros [= <- <- <-].
        now apply (Hcommon (Next (i + param_count a + 1) success)).
      * destruct (halt_on_fail a); intros [= <- <- <-].
        -- now apply (Hcommon (Return 1)).
        -- now apply (Hcommon (Next (i + param_count a + 1) false)).
  - destruct halt_on_unrecognized; intros [= <- <- <-];
      (eexists; split; [reflexivity|]);
      (split; [reflexivity|]); (split; [solve [reflexivity | exact Htok]|]);
      (split; [exact Hcmd|]); (split; [reflexivity|]).
    + exact I.
    + unfold event_next. simpl. rewrite Hcmd. split; [reflexivity | lia].
Qed.

Lemma Process_loop_sound fuel : forall i success w o tr w',
  call_ok cmds argc argv -> 0 <= i ->
  Process_loop fuel cmds argc argv halt_on_unrecognized i success w = (o, tr, w') ->
  chained cmds i tr
  /\ Forall (fun ev => i <= event_index ev < argc
               /\ argv !! Z.to_nat (event_index ev) = Some (event_token ev)
               /\ event_sound cmds argc argv ev) tr
  /\ Z.of_nat (length tr) <= Z.max 0 (argc - i).
Proof.
  induction fuel as [|fuel IH]; intros i success w o tr w' Hok Hi.
  - simpl. intros [= <- <- <-]. repeat split; [constructor | simpl; lia].
  - rewrite Process_loop_S. destruct (Z.ltb_spec i argc).
    2:{ intros [= <- <- <-]. repeat split; [constructor | simpl; lia]. }
    destruct (Process_step cmds argc argv halt_on_unrecognized i success w)
      as [[sr evs] w1] eqn:Hstep.
    destruct (Process_step_sound _ _ _ _ _ _ Hok (conj Hi H) Hstep)
      as (ev & -> & Hidx & Htok & Hsound & _ & Hsr).
    assert (Hev : i <= event_index ev < argc
                  /\ argv !! Z.to_nat (event_index ev) = Some (event_token ev)
                  /\ event_sound cmds argc argv ev).
    { rewrite Hidx. repeat split; auto; lia. }
    destruct sr as [code | i' success' | ]; [| |contradiction].
    + intros [= <- <- <-]. split; [now split|]. split; [now constructor|].
      simpl. lia.
    + destruct Hsr as [-> Hlt].
      destruct (Process_loop fuel cmds argc argv halt_on_unrecognized
                  (event_next cmds ev) success' w1) as [[o2 tr2] w2] eqn:Hrec.
      assert (Hi' : 0 <= event_next cmds ev) by lia.
      destruct (IH _ _ _ _ _ _ Hok Hi' Hrec) as (Hchain & Hall & Hlen).
      intros [= <- <- <-]. split; [now split|]. split.
      * constructor; [exact Hev|].
        eapply Forall_impl; [exact Hall|]. simpl. intros ev' (? & ? & ?).
        repeat split; auto; lia.
      * simpl length. lia.
Qed.

End ProcessorExtra.

(** A recognized command followed by at least as many tokens as its
    arity is invoked, also when its last parameter is the last token:
    the handler is called once on the view of the tokens after the
    command, its world is kept, and the loop goes on behind the
    parameters unless the handler failed under [halt_on_fail]. *)
Theorem command_with_parameters_invoked {World : Type}
    (cmds : gmap string (Cmd World)) (argc : Z) (argv : list string)
    (halt_on_unrecognized : bool) (i : Z) (success : bool) (w : World)
    (tok : string) (a : Cmd World) :
  call_ok cmds argc argv -> 0 <= i < argc ->
  argv_at argv i = Some tok -> Command cmds tok = Some a ->
  i + param_count a < argc ->
  let ps := params_at argv i (param_count a) in
  Process_step cmds argc argv halt_on_unrecognized i success w
  = (if fst (fn a ps w) then Next (i + param_count a + 1) success
     else if halt_on_fail a then Return 1
     else Next (i + param_count a + 1) false,
     [Invoked i tok ps (fst (fn a ps w))],
     snd (fn a ps w)).
Proof.
  intros Hok Hi Htok Hcmd Henough ps.
  rewrite Process_step_exact_eq by assumption.
  unfold Process_step_exact. rewrite Htok, Hcmd. cbv zeta.
  destruct (Z.leb_spec argc (i + param_count a)); [lia|].
  fold ps. destruct (fn a ps w) as [[] w1]; simpl; [reflexivity|].
  now destruct (halt_on_fail a).
Qed.

Lemma command_with_parameters_invoked_witness :
  Process_step (Cmds Demo.globals) 4 ["app"; "add-two-values"; "13"; "15"]
    false 1 true []
  = (Next 4 true,
     [Invoked 1 "add-two-values" (mkParams (Some ["13"; "15"]) 2) true],
     [Demo.Number 28]).
Proof.
  apply (command_with_parameters_invoked (Cmds Demo.globals) 4
           ["app"; "add-two-values"; "13"; "15"] false 1 true []
           "add-two-values" (descriptor Demo.add_two_values)
           (demo_call_ok ["app"; "add-two-values"; "13"; "15"] ltac:(simpl; lia))
           ltac:(lia) eq_refl eq_refl ltac:(simpl; lia)).
Defined.

(** Within [call_ok], [Process] goes through the command line from left
    to right: the first event is about index 1, each further event is
    about the index behind the previous command and its parameters (so a
    token taken as a parameter is never looked up as a command), every
    event is about a token of [argv] between 1 and [argc - 1], and there
    are at most [argc - 1] events. *)
Theorem Process_left_to_right {World : Type} (cmds : gmap string (Cmd World))
    (argc : Z) (argv : list string) (halt_on_unrecognized : bool) (w : World)
    (fuel : nat) (o : outcome) (tr : list event) (w' : World) :
  call_ok cmds argc argv ->
  Process fuel cmds argc argv halt_on_unrecognized w = (o, tr, w') ->
  chained cmds 1 tr
  /\ Forall (fun ev => 1 <= event_index ev < argc
               /\ argv !! Z.to_nat (event_index ev) = Some (event_token ev)) tr
  /\ Z.of_nat (length tr) <= Z.max 0 (argc - 1).
Proof.
  intros Hok Hrun.
  destruct (Process_loop_sound _ _ _ _ _ _ _ _ _ _ _ Hok Z.le_0_1 Hrun)
    as (Hchain & Hall & Hlen).
  split; [exact Hchain|]. split; [|exact Hlen].
  eapply Forall_impl; [exact Hall|]. simpl. now intros ev (? & ? & _).
Qed.

Lemma Process_left_to_right_witness :
  chained (Cmds Demo.globals) 1
    [Invoked 1 "add-two-values" (mkParams (Some ["help"; "must-pass"; "version"]) 2) false;
     Invoked 4 "version" (mkParams None 0) true].
Proof.
  assert (Hrun : Process 5 (Cmds Demo.globals) 5
                   ["app"; "add-two-values"; "help"; "must-pass"; "version"] false []
                 = (Exit 1,
                    [Invoked 1 "add-two-values"
                       (mkParams (Some ["help"; "must-pass"; "version"]) 2) false;
                     Invoked 4 "version" (mkParams None 0) true], []))
    by (vm_compute; reflexivity).
  apply (Process_left_to_right _ _ _ _ _ _ _ _ _
           (demo_call_ok ["app"; "add-two-values"; "help"; "must-pass"; "version"]
              ltac:(simpl; lia)) Hrun).
Defined.

(** Within [call_ok] the events of a run tell the truth: an unrecognized
    token is not registered, a command reported with too few parameters
    has more parameters than tokens are left, and every handler that is
    invoked gets a view whose count is its arity and whose every index
    below the count reads a token of [argv] (never the null parameter,
    never past the end). *)
Theorem Process_events_sound {World : Type} (cmds : gmap string (Cmd World))
    (argc : Z) (argv : list string) (halt_on_unrecognized : bool) (w : World)
    (fuel : nat) (o : outcome) (tr : list event) (w' : World) :
  call_ok cmds argc argv ->
  Process fuel cmds argc argv halt_on_unrecognized w = (o, tr, w') ->
  Forall (event_sound cmds argc argv) tr.
Proof.
  intros Hok Hrun.
  destruct (Process_loop_sound _ _ _ _ _ _ _ _ _ _ _ Hok Z.le_0_1 Hrun)
    as (_ & Hall & _).
  eapply Forall_impl; [exact Hall|]. simpl. now intros ev (_ & _ & ?).
Qed.

Lemma Process_events_sound_witness :
  event_sound (Cmds Demo.globals) 4 ["app"; "add-two-values"; "13"; "15"]
    (Invoked 1 "add-two-values" (mkParams (Some ["13"; "15"]) 2) true).
Proof.
  assert (Hrun : Process 4 (Cmds Demo.globals) 4
                   ["app"; "add-two-values"; "13"; "15"] false []
                 = (Exit 0,
                    [Invoked 1 "add-two-values" (mkParams (Some ["13"; "15"]) 2) true],
                    [Demo.Number 28]))
    by (vm_compute; reflexivity).
  pose proof (Process_events_sound _ _ _ _ _ _ _ _ _
                (demo_call_ok ["app"; "add-two-values"; "13"; "15"]
                   ltac:(simpl; lia)) Hrun) as Hall.
  inversion Hall; subst. assumption.
Defined.

(** ** [Process] on any input *)

Section ProcessorAny.
Context {World : Type}.
Variable cmds : gmap string (Cmd World).
Variable argc : Z.
Variable argv : list string.
Variable halt_on_unrecognized : bool.
Implicit Type w : World.

Lemma Process_step_world i success w sr evs w' :
  Process_step cmds argc argv halt_on_unrecognized i success w = (sr, evs, w') ->
  Forall (fun ev => is_invocation ev = false) evs -> w' = w.
Proof.
  unfold Process_step.
  destruct (argv_at argv i) as [tok|]; [|now intros [= <- <- <-]].
  destruct (Command cmds tok) as [a|]; [|now intros [= <- <- <-]].
  destruct (_ <=? _); [now intros [= <- <- <-]|].
  destruct (fn a _ w) as [[] w1].
  - intros [= <- <- <-] Hno. inversion Hno; subst. discriminate.
  - destruct (halt_on_fail a); intros [= <- <- <-] Hno;
      inversion Hno; subst; discriminate.
Qed.

Lemma Process_loop_world fuel : forall i success w o tr w',
  Process_loop fuel cmds argc argv halt_on_unrecognized i success w = (o, tr, w') ->
  Forall (fun ev => is_invocation ev = false) tr -> w' = w.
Proof.
  induction fuel as [|fuel IH]; intros i success w o tr w'.
  - simpl. now intros [= <- <- <-].
  - rewrite Process_loop_S. destruct (i <? argc); [|now intros [= <- <- <-]].
    destruct (Process_step cmds argc argv halt_on_unrecognized i success w)
      as [[sr evs] w1] eqn:Hstep.
    pose proof (Process_step_world _ _ _ _ _ _ Hstep) as Hw1.
    destruct sr as [code | i' success' | ]; try (intros [= <- <- <-]; exact Hw1).
    destruct (Process_loop fuel cmds argc argv halt_on_unrecognized i' success' w1)
      as [[o2 tr2] w2] eqn:Hrec.
    intros [= <- <- <-] Hno. apply Forall_app in Hno as [Hno1 Hno2].
    rewrite (IH _ _ _ _ _ _ Hrec Hno2). now apply Hw1.
Qed.

End ProcessorAny.

(** Whatever the registry and the command line: a run of [Process] in
    which no handler was invoked leaves the world of the handlers as it
    was.  Without [halt_on_unrecognized] such a run, if it returns,
    returns 0; within [call_ok] and with fuel for every token it does
    return 0.  (Outside [call_ok] it may not return at all.) *)
Theorem Process_effects_only_by_handlers {World : Type}
    (cmds : gmap string (Cmd World)) (argc : Z) (argv : list string)
    (halt_on_unrecognized : bool) (w : World)
    (fuel : nat) (o : outcome) (tr : list event) (w' : World) :
  Process fuel cmds argc argv halt_on_unrecognized w = (o, tr, w') ->
  Forall (fun ev => is_invocation ev = false) tr ->
  w' = w
  /\ (halt_on_unrecognized = false -> forall code, o = Exit code -> code = 0)
  /\ (halt_on_unrecognized = false -> call_ok cmds argc argv ->
      (Z.to_nat argc < fuel)%nat -> o = Exit 0).
Proof.
  intros Hrun Hno.
  assert (Hcode : halt_on_unrecognized = false ->
                  forall code, o = Exit code -> code = 0).
  { intros Hhu code ->.
    destruct (Process_code _ _ _ _ _ _ _ _ _ Hrun) as [[-> | ->] Hiff]; [reflexivity|].
    rewrite List.Forall_forall in Hno.
    destruct (proj1 Hiff eq_refl)
      as [[Hhu' _] | [(j & tok & ps & _ & Hin & _) | (j & tok & ps & Hin)]].
    - congruence.
    - specialize (Hno _ Hin). discriminate.
    - specialize (Hno _ Hin). discriminate. }
  split; [now apply (Process_loop_world _ _ _ _ _ _ _ _ _ _ _ Hrun)|].
  split; [exact Hcode|].
  intros Hhu Hok Hfuel.
  destruct (Process_loop_result cmds argc argv halt_on_unrecognized 1 true w Hok)
    as (code & tr0 & w0 & Hres); [lia|].
  unfold Process in Hrun. rewrite Hres in Hrun by lia.
  injection Hrun as <- _ _. f_equal. now apply Hcode.
Qed.

Lemma Process_effects_only_by_handlers_witness :
  Process 10 (Cmds Demo.globals) 3 Demo.short_line false [Demo.Text "before"]
  = (Exit 0, [TooFew 1 "add-two-values"], [Demo.Text "before"]).
Proof.
  destruct (Process 10 (Cmds Demo.globals) 3 Demo.short_line false [Demo.Text "before"])
    as [[o tr] w'] eqn:Hrun.
  assert (Htr : (o, tr) = (Exit 0, [TooFew 1 "add-two-values"])).
  { change (o, tr) with (fst (o, tr, w')). rewrite <- Hrun.
    vm_compute. reflexivity. }
  injection Htr as -> ->.
  destruct (Process_effects_only_by_handlers _ _ _ _ _ _ _ _ _ Hrun) as [-> _].
  - repeat constructor.
  - reflexivity.
Defined.

(** A command line on which no token is a registered command: without
    [halt_on_unrecognized], [Process] reports every token after the
    program name, in order, invokes nothing and returns 0. *)
Theorem nothing_recognized_run {World : Type} (cmds : gmap string (Cmd World))
    (prog : string) (toks : list string) (w : World) (fuel : nat) :
  Forall (fun tok => Command cmds tok = None) toks ->
  Z.of_nat (length (prog :: toks)) <= INT_MAX ->
  (length toks < fuel)%nat ->
  Process fuel cmds (Z.of_nat (length (prog :: toks))) (prog :: toks) false w
  = (Exit 0, all_unrecognized 1 toks, w).
Proof.
  intros Hnone Hmax Hfuel.
  set (argv := prog :: toks). set (argc := Z.of_nat (length argv)).
  assert (Hmax' : argc <= INT_MAX) by exact Hmax.
  assert (Hgen : forall rest pre i success n,
            argv = pre ++ rest -> i = Z.of_nat (length pre) ->
            Forall (fun tok => Command cmds tok = None) rest ->
            (length rest < n)%nat ->
            Process_loop n cmds argc argv false i success w
            = (Exit (if success then 0 else 1), all_unrecognized i rest, w)).
  { induction rest as [|tok rest IH]; intros pre i success n Hargv -> Hrest Hn.
    - destruct n as [|n]; [simpl in Hn; lia|]. rewrite Process_loop_S.
      destruct (Z.ltb_spec (Z.of_nat (length pre)) argc) as [Hlt|]; [|reflexivity].
      unfold argc in Hlt. rewrite Hargv, length_app in Hlt. simpl in Hlt. lia.
    - destruct n as [|n]; [simpl in Hn; lia|]. rewrite Process_loop_S.
      pose proof (Forall_inv Hrest) as Htok. pose proof (Forall_inv_tail Hrest) as Hrest'.
      simpl in Htok.
      assert (Hlen : argc = Z.of_nat (length pre) + 1 + Z.of_nat (length rest)).
      { unfold argc. rewrite Hargv, length_app. simpl. lia. }
      destruct (Z.ltb_spec (Z.of_nat (length pre)) argc); [|lia].
      assert (Hat : argv_at argv (Z.of_nat (length pre)) = Some tok).
      { unfold argv_at. destruct (Z.ltb_spec (Z.of_nat (length pre)) 0); [lia|].
        rewrite Nat2Z.id, Hargv. apply list_lookup_middle. reflexivity. }
      unfold Process_step, increment. rewrite Hat, Htok.
      destruct (Z.eqb_spec (Z.of_nat (length pre)) INT_MAX).
      { lia. }
      rewrite (IH (pre ++ [tok]) (Z.of_nat (length pre) + 1) success n).
      + reflexivity.
      + now rewrite <- app_assoc.
      + rewrite length_app. simpl. lia.
      + assumption.
      + simpl in Hn. lia. }
  unfold Process. apply (Hgen toks [prog] 1 true fuel); auto.
Qed.

Lemma nothing_recognized_run_witness :
  Process 3 (Cmds Demo.globals) 3 ["app"; "frobnicate"; "add_two_values"] false []
  = (Exit 0, [Unrecognized 1 "frobnicate"; Unrecognized 2 "add_two_values"], []).
Proof.
  apply (nothing_recognized_run (Cmds Demo.globals) "app"
           ["frobnicate"; "add_two_values"] [] 3).
  - repeat constructor.
  - unfold INT_MAX. simpl. lia.
  - simpl. lia.
Defined.

(** An arity at the end of [uint32_t] is not handled: the sum
    [i + param_count] wraps to 0, so a command of arity 4294967295 in
    the first position counts as having enough parameters, its handler
    is invoked, and [i += param_count] brings the index back to where it
    was.  If the handler keeps returning true, [Process] never returns. *)
Theorem arity_wrap_never_returns {World : Type} (cmds : gmap string (Cmd World))
    (argc : Z) (argv : list string) (halt_on_unrecognized : bool)
    (tok : string) (a : Cmd World) :
  2 <= argc <= INT_MAX ->
  argv_at argv 1 = Some tok -> Command cmds tok = Some a ->
  param_count a = 2 ^ 32 - 1 ->
  (forall ps w, fst (fn a ps w) = true) ->
  forall (fuel : nat) (w : World),
    fst (fst (Process fuel cmds argc argv halt_on_unrecognized w)) = OutOfFuel.
Proof.
  intros Hargc Htok Hcmd Hcount Htrue. unfold Process, INT_MAX in *.
  assert (Hgen : forall (fuel : nat) (w : World), exists tr w',
            Process_loop fuel cmds argc argv halt_on_unrecognized 1 true w
            = (OutOfFuel, tr, w')).
  { induction fuel as [|fuel IH]; intros w; [simpl; eauto|].
    rewrite Process_loop_S.
    destruct (Z.ltb_spec 1 argc); [|lia].
    unfold Process_step. rewrite Htok, Hcmd, Hcount.
    assert (Hsum : to_u32 (to_u32 1 + (2 ^ 32 - 1)) = 0) by reflexivity.
    assert (Hargc' : to_u32 argc = argc) by (unfold to_u32; apply Z.mod_small; lia).
    rewrite Hsum, Hargc'.
    destruct (Z.leb_spec argc 0); [lia|].
    specialize (Htrue (mkParams (if 0 <? 2 ^ 32 - 1
                                 then Some (drop (Z.to_nat (1 + 1)) argv) else None)
                                (2 ^ 32 - 1)) w).
    destruct (fn a _ w) as [ret w1]. simpl in Htrue. subst ret.
    change (increment (add_assign 1 (2 ^ 32 - 1)) true) with (Next 1 true).
    cbv iota beta.
    destruct (IH w1) as (tr & w2 & ->). eauto. }
  intros fuel w. destruct (Hgen fuel w) as (tr & w' & ->). reflexivity.
Qed.

Lemma arity_wrap_never_returns_witness :
  fst (fst (Process 1000 (Cmds Wrap.globals) 2 ["app"; "spin"] true tt)) = OutOfFuel.
Proof.
  apply (arity_wrap_never_returns (Cmds Wrap.globals) 2 ["app"; "spin"] true
           "spin" (descriptor Wrap.spin)).
  - unfold INT_MAX. lia.
  - reflexivity.
  - reflexivity.
  - reflexivity.
  - reflexivity.
Defined.

(** ** What the conversions read *)

(** The extraction on a text with an integer field. *)
Lemma extract_integer_field (lo hi : Z) (s ws sgn ds rest : list ascii) :
  integer_field s ws sgn ds rest ->
  extract_integer lo hi s
  = let v := signed_decimal sgn ds in
    if v <? lo then (lo, false) else if hi <? v then (hi, false) else (v, true).
Proof.
  intros (-> & Hws & Hsgn & Hne & Hds & Hrest).
  unfold extract_integer, signed_decimal.
  destruct (read_sign_field sgn ds rest Hsgn Hne Hds) as [Hrs Hhd].
  rewrite skip_ws_app, Hrs, digits_prefix_app by assumption.
  destruct ds as [|d ds]; [congruence|].
  cbv zeta. now case_bool_decide; case_decide.
Qed.

Lemma conversions_on_field (s : string) (ws sgn ds rest : list ascii) :
  integer_field (list_ascii_of_string s) ws sgn ds rest ->
  Int (mkParam (Some s)) = Some (clamp_int64 (signed_decimal sgn ds))
  /\ Bool (mkParam (Some s))
     = Some (mkParse (negb (value (clamp_int64 (signed_decimal sgn ds)) =? 0))
               ((signed_decimal sgn ds =? 0) || (signed_decimal sgn ds =? 1))).
Proof.
  intros Hfield. unfold Int, Bool, extract_int64, extract_bool, clamp_int64. simpl.
  rewrite (extract_integer_field _ _ _ _ _ _ _ Hfield). cbv zeta.
  unfold INT64_MIN, INT64_MAX.
  destruct (Z.ltb_spec (signed_decimal sgn ds) (- 2 ^ 63)); simpl.
  - split; [reflexivity|]. do 2 f_equal.
    destruct (Z.eqb_spec (signed_decimal sgn ds) 0); [lia|].
    destruct (Z.eqb_spec (signed_decimal sgn ds) 1); [lia | reflexivity].
  - destruct (Z.ltb_spec (2 ^ 63 - 1) (signed_decimal sgn ds)); simpl.
    + split; [reflexivity|]. do 2 f_equal.
      destruct (Z.eqb_spec (signed_decimal sgn ds) 0); [lia|].
      destruct (Z.eqb_spec (signed_decimal sgn ds) 1); [lia | reflexivity].
    + split; reflexivity.
Qed.

(** [Int] on a text that holds a number: white space before the number
    and any text after its last digit are ignored; a number within
    [int64_t] is stored with [result = true]; a number outside it gives
    [result = false] and the nearest bound as value. *)
Theorem Int_on_number (s : string) (ws sgn ds rest : list ascii) :
  integer_field (list_ascii_of_string s) ws sgn ds rest ->
  let v := signed_decimal sgn ds in
  Int (mkParam (Some s))
  = Some (if v <? INT64_MIN then mkParse INT64_MIN false
          else if INT64_MAX <? v then mkParse INT64_MAX false
          else mkParse v true).
Proof.
  intros Hfield v. unfold Int, extract_int64. simpl.
  rewrite (extract_integer_field _ _ _ _ _ _ _ Hfield). cbv zeta. fold v.
  destruct (v <? INT64_MIN); [reflexivity|].
  now destruct (INT64_MAX <? v).
Qed.

Lemma Int_on_number_witness :
  Int (mkParam (Some "  99999999999999999999 apples"))
  = Some (mkParse INT64_MAX false).
Proof.
  apply (Int_on_number "  99999999999999999999 apples"
           (list_ascii_of_string "  ") []
           (list_ascii_of_string "99999999999999999999")
           (list_ascii_of_string " apples")
           ltac:(repeat split;
                   [repeat constructor | now left | discriminate
                   | repeat constructor | now intros c [= <-]])).
Defined.

Lemma digit_char_spec (d : Z) :
  0 <= d < 10 -> is_digit (digit_char d) = true /\ digit_value (digit_char d) = d.
Proof.
  intros Hd.
  assert (Hcases : d = 0 \/ d = 1 \/ d = 2 \/ d = 3 \/ d = 4 \/ d = 5 \/ d = 6
                   \/ d = 7 \/ d = 8 \/ d = 9) by lia.
  repeat (destruct Hcases as [-> | Hcases]; [split; reflexivity|]).
  subst d. split; reflexivity.
Qed.

Lemma decimal_snoc (ds : list ascii) (c : ascii) :
  decimal (ds ++ [c]) = 10 * decimal ds + digit_value c.
Proof. unfold decimal. now rewrite fold_left_app. Qed.

(** [render_digits] puts the decimal digits of [n] in front of [acc]. *)
Lemma render_digits_spec (fuel : nat) : forall (n : Z) (acc : list ascii),
  0 <= n < 2 ^ Z.of_nat (S fuel) ->
  exists ds, render_digits (S fuel) n acc = ds ++ acc
    /\ ds <> [] /\ Forall (fun c => is_digit c = true) ds /\ decimal ds = n.
Proof.
  induction fuel as [|fuel IH]; intros n acc Hn;
    cbn [render_digits];
    assert (Hmod : 0 <= n mod 10 < 10) by (apply Z.mod_pos_bound; lia);
    destruct (digit_char_spec _ Hmod) as [Hdig Hval];
    destruct (Z.ltb_spec n 10) as [Hlt | Hge].
  - exists [digit_char (n mod 10)]. repeat split.
    + discriminate.
    + now constructor.
    + unfold decimal. simpl. rewrite Hval. rewrite Z.mod_small; lia.
  - simpl in Hn. lia.
  - exists [digit_char (n mod 10)]. repeat split.
    + discriminate.
    + now constructor.
    + unfold decimal. simpl. rewrite Hval. rewrite Z.mod_small; lia.
  - destruct (IH (n / 10) (digit_char (n mod 10) :: acc))
      as (ds & Hr & Hne & Hds & Hdec).
    { split; [apply Z.div_pos; lia|].
      apply Z.div_lt_upper_bound; [lia|].
      rewrite (Nat2Z.inj_succ (S fuel)), Z.pow_succ_r in Hn by lia. lia. }
    cbn [render_digits] in Hr. rewrite Hr.
    exists (ds ++ [digit_char (n mod 10)]). repeat split.
    + now rewrite <- app_assoc.
    + now destruct ds.
    + apply Forall_app. split; [assumption | now constructor].
    + rewrite decimal_snoc, Hdec, Hval.
      pose proof (Z.div_mod n 10). lia.
Qed.

Lemma numeral_field (z : Z) :
  exists sgn ds,
    integer_field (numeral_chars z) [] sgn ds []
    /\ signed_decimal sgn ds = z.
Proof.
  unfold numeral_chars.
  destruct (render_digits_spec (Z.to_nat (Z.log2 (Z.abs z))) (Z.abs z) [])
    as (ds & Hr & Hne & Hds & Hdec).
  { split; [lia|]. rewrite Nat2Z.inj_succ, Z2Nat.id by apply Z.log2_nonneg.
    destruct (Z.eq_dec (Z.abs z) 0) as [-> | Hnz]; [reflexivity|].
    apply Z.log2_spec. lia. }
  rewrite Hr, app_nil_r.
  destruct (Z.ltb_spec z 0).
  - exists ["-"%char], ds. split.
    + repeat split; auto. simpl. now rewrite app_nil_r. discriminate.
    + unfold signed_decimal. rewrite decide_True by reflexivity. lia.
  - exists [], ds. split.
    + repeat split; auto. simpl. now rewrite app_nil_r. discriminate.
    + unfold signed_decimal. rewrite decide_False by discriminate. lia.
Qed.

(** Reading back a number: [Int] on the decimal notation of an integer
    gives that integer with [result = true] when it fits [int64_t]
    (both bounds included) and [result = false] otherwise; [Bool] accepts
    the notation of 0 as false and of 1 as true, and no other number. *)
Theorem Int_reads_numeral (z : Z) :
  Int (mkParam (Some (numeral z))) = Some (clamp_int64 z)
  /\ (INT64_MIN <= z <= INT64_MAX -> clamp_int64 z = mkParse z true)
  /\ (exists b, Bool (mkParam (Some (numeral z))) = Some b
        /\ (result b = true <-> z = 0 \/ z = 1)
        /\ (result b = true -> value b = (z =? 1))).
Proof.
  destruct (numeral_field z) as (sgn & ds & Hfield & Hz).
  assert (Hfield' : integer_field (list_ascii_of_string (numeral z)) [] sgn ds []).
  { unfold numeral. now rewrite list_ascii_of_string_of_list_ascii. }
  destruct (conversions_on_field (numeral z) [] sgn ds [] Hfield') as [HInt HBool].
  rewrite Hz in HInt, HBool. clear Hz Hfield Hfield'.
  split; [exact HInt|]. split.
  - intros Hrange. unfold clamp_int64.
    destruct (Z.ltb_spec z INT64_MIN); [lia|].
    destruct (Z.ltb_spec INT64_MAX z); [lia | reflexivity].
  - eexists. split; [exact HBool|]. simpl. split.
    + rewrite orb_true_iff, !Z.eqb_eq. tauto.
    + intros H. apply orb_true_iff in H as [H | H]; apply Z.eqb_eq in H;
        rewrite H; reflexivity.
Qed.

Example numeral_minus_42 : numeral (-42) = "-42".
Proof. reflexivity. Qed.

Lemma Int_reads_numeral_witness :
  Int (mkParam (Some (numeral INT64_MIN))) = Some (mkParse INT64_MIN true).
Proof.
  destruct (Int_reads_numeral INT64_MIN) as (HInt & Hfits & _).
  rewrite HInt, Hfits; [reflexivity|]. unfold INT64_MIN, INT64_MAX. lia.
Defined.

Lemma unclean_token_unrecognized_witness :
  Command (Cmds Demo.globals) "add_two_values" = None.
Proof.
  apply (unclean_token_unrecognized Demo.registrations "add_two_values" 2 1
           ["app"; "add_two_values"] true []).
  - unfold key_chars_ok. rewrite List.Forall_forall. intros H.
    destruct (H "_"%char) as [H' | H']; [|discriminate H'|discriminate H'].
    simpl. tauto.
  - reflexivity.
Defined.

Lemma Register_frame_witness :
  Command (Cmds (register_all [Demo.must_pass_again] Demo.globals)) "help"
  = Command (Cmds Demo.globals) "help".
Proof.
  apply (Register_frame [Demo.must_pass_again] Demo.globals "help").
  repeat constructor. vm_compute. discriminate.
Defined.

Lemma Register_twice_and_swap_witness :
  Command (Cmds (register_call (register_call Demo.globals Demo.must_pass)
                   Demo.another_cmd)) "must-pass"
  = Command (Cmds (register_call (register_call Demo.globals Demo.another_cmd)
                     Demo.must_pass)) "must-pass".
Proof.
  apply (proj2 (Register_twice_and_swap Demo.globals Demo.must_pass Demo.another_cmd)).
  vm_compute. discriminate.
Defined.

(** ** The exit code of [Process] *)

(** Within [call_ok] a run of the loop that returns is a run of
    [exact_run]. *)
Lemma Process_loop_exact_run {World : Type} (cmds : gmap string (Cmd World))
    (argc : Z) (argv : list string) (halt_on_unrecognized : bool) (fuel : nat) :
  forall i success (w : World) code tr w',
    call_ok cmds argc argv -> 0 <= i ->
    Process_loop fuel cmds argc argv halt_on_unrecognized i success w
    = (Exit code, tr, w') ->
    exact_run cmds argc argv halt_on_unrecognized i success w code tr w'.
Proof.
  induction fuel as [|fuel IH]; intros i success w code tr w' Hok Hi;
    [discriminate|].
  rewrite Process_loop_S. destruct (Z.ltb_spec i argc) as [Hlt | Hge].
  2:{ intros [= <- <- <-]. now apply run_exhausted. }
  rewrite Process_step_exact_eq by (assumption || lia).
  unfold Process_step_exact.
  destruct (argv_at argv i) as [tok|] eqn:Htok; [|discriminate].
  destruct (Command cmds tok) as [a|] eqn:Hcmd.
  - assert (Hpos : 0 <= param_count a).
    { destruct Hok as (_ & _ & Hfit). now destruct (Hfit _ _ Hcmd). }
    cbv zeta. destruct (Z.leb_spec argc (i + param_count a)) as [Hfew | Henough].
    + destruct (Process_loop fuel cmds argc argv halt_on_unrecognized
                  (i + param_count a + 1) success w) as [[o2 tr2] w2] eqn:Hrec.
      intros [= -> <- <-].
      apply run_too_few with a; auto. apply IH; [assumption | lia | exact Hrec].
    + destruct (fn a (params_at argv i (param_count a)) w) as [[] w1] eqn:Hfn.
      * destruct (Process_loop fuel cmds argc argv halt_on_unrecognized
                    (i + param_count a + 1) success w1) as [[o2 tr2] w2] eqn:Hrec.
        intros [= -> <- <-].
        apply run_handler_true with w1; auto.
        apply IH; [assumption | lia | exact Hrec].
      * destruct (halt_on_fail a) eqn:Hhalt.
        -- intros [= <- <- <-]. now apply run_handler_false_halt.
        -- destruct (Process_loop fuel cmds argc argv halt_on_unrecognized
                       (i + param_count a + 1) false w1) as [[o2 tr2] w2] eqn:Hrec.
           intros [= -> <- <-].
           apply run_handler_false_go with w1; auto.
           apply IH; [assumption | lia | exact Hrec].
  - destruct halt_on_unrecognized eqn:Hhu.
    + intros [= <- <- <-]. now apply run_unrecognized_halt.
    + destruct (Process_loop fuel cmds argc argv false (i + 1) success w)
        as [[o2 tr2] w2] eqn:Hrec.
      intros [= -> <- <-].
      apply run_unrecognized_skip; auto. apply IH; [assumption | lia | exact Hrec].
Qed.

(** C2 as stated fails: with [spin] registered for 4294967295 parameters
    the command line [app spin] contains no unrecognized command and the
    handler never returns false, so [Process] should return 0; but no
    amount of fuel makes it return. *)
Lemma Process_wrap_no_exit :
  is_Some (Command (Cmds Wrap.globals) "spin")
  /\ (forall ps w, fst (Wrap.spin_Run ps w) = true)
  /\ ~ (exists fuel code tr w',
          Process fuel (Cmds Wrap.globals) 2 ["app"; "spin"] false tt
          = (Exit code, tr, w')).
Proof.
  split; [eexists; reflexivity|]. split; [reflexivity|].
  intros (fuel & code & tr & w' & Hrun).
  pose proof (arity_wrap_spins fuel) as Hspin.
  rewrite Hrun in Hspin. discriminate Hspin.
Qed.

(** C2, amended: for every registry and argument vector within the range
    of [int] ([call_ok]: [argc] is the length of [argv] and [argc] plus
    any registered arity fits an [int]), [Process] returns, with the
    events and the exit code of the run of the loop from index 1; the
    exit code is 1 exactly when the run met an unrecognized command
    under [halt_on_unrecognized], or a handler that returned false for a
    command registered with [halt_on_fail], or any handler that returned
    false, and 0 in every other case, in particular without arguments
    beyond the program name. *)
Theorem Process_exit_code {World : Type} (cmds : gmap string (Cmd World))
    (argc : Z) (argv : list string) (halt_on_unrecognized : bool) (w : World) :
  call_ok cmds argc argv ->
  exists code tr w',
    (forall fuel, (Z.to_nat argc < fuel)%nat ->
       Process fuel cmds argc argv halt_on_unrecognized w = (Exit code, tr, w'))
    /\ exact_run cmds argc argv halt_on_unrecognized 1 true w code tr w'
    /\ (code = 0 \/ code = 1)
    /\ (code = 1 <->
        (halt_on_unrecognized = true /\ exists i tok, In (Unrecognized i tok) tr)
        \/ (exists i tok ps a, In (Invoked i tok ps false) tr
              /\ Command cmds tok = Some a /\ halt_on_fail a = true)
        \/ (exists i tok ps, In (Invoked i tok ps false) tr))
    /\ (argc <= 1 -> code = 0 /\ tr = [] /\ w' = w).
Proof.
  intros Hok.
  destruct (Process_loop_result cmds argc argv halt_on_unrecognized 1 true w Hok)
    as (code & tr & w' & Hrun); [lia|].
  assert (Hrun0 : Process (S (Z.to_nat argc)) cmds argc argv halt_on_unrecognized w
                  = (Exit code, tr, w')) by (apply Hrun; lia).
  exists code, tr, w'. split; [|split; [|split; [|split]]].
  - intros fuel Hfuel. apply Hrun. lia.
  - apply (Process_loop_exact_run _ _ _ _ _ _ _ _ _ _ _ Hok Z.le_0_1 Hrun0).
  - apply (Process_code _ _ _ _ _ _ _ _ _ Hrun0).
  - apply (Process_code _ _ _ _ _ _ _ _ _ Hrun0).
  - intros Hargc. unfold Process in Hrun0. rewrite Process_loop_S in Hrun0.
    destruct (Z.ltb_spec 1 argc); [lia|]. now injection Hrun0 as <- <- <-.
Qed.

Lemma Process_exit_code_witness :
  exists code tr w',
    (forall fuel, (Z.to_nat 3 < fuel)%nat ->
       Process fuel (Cmds Demo.globals) 3 ["app"; "must-pass"; "another-cmd"] false []
       = (Exit code, tr, w'))
    /\ exact_run (Cmds Demo.globals) 3 ["app"; "must-pass"; "another-cmd"] false
         1 true [] code tr w'
    /\ (code = 0 \/ code = 1)
    /\ (code = 1 <->
        (false = true /\ exists i tok, In (Unrecognized i tok) tr)
        \/ (exists i tok ps a, In (Invoked i tok ps false) tr
              /\ Command (Cmds Demo.globals) tok = Some a /\ halt_on_fail a = true)
        \/ (exists i tok ps, In (Invoked i tok ps false) tr))
    /\ (3 <= 1 -> code = 0 /\ tr = [] /\ w' = []).
Proof.
  apply (Process_exit_code (Cmds Demo.globals) 3
           ["app"; "must-pass"; "another-cmd"] false []).
  apply (demo_call_ok ["app"; "must-pass"; "another-cmd"]). simpl; lia.
Defined.
